(** * Verification of the limiter worker pool (patterns/limiter/client-limiter.go)
      and of the functional-options builders (patterns/foptions.go).

    The Go program is embedded shallowly:
    - a buffered [chan int] is a record holding its buffer, its capacity
      and its closed flag, with Go's send / receive / close rules;
    - the goroutines of the program (workers, stop handlers, the
      [wgroup] loops, the producer and [main]) are program counters in
      one global state, and [step] executes one atomic action of one
      goroutine, chosen by a label, as an interleaving scheduler would;
    - [http.Client] / [http.Transport] are records of the fields that the
      option functions write. *)

From stdpp Require Import base list list_tactics.
From Stdlib Require Import ZArith Lia.
Open Scope Z_scope.

(* ================================================================== *)
(** ** Go buffered channels *)

Module Chan.

(** A buffered channel [make(chan int, cap)]. *)
Record chan := mkChan {
  ch_buf : list Z;       (** values sent and not yet received, oldest first *)
  ch_cap : nat;          (** capacity given to [make] *)
  ch_closed : bool       (** [close] has been called *)
}.

Inductive send_result :=
  | SendOk (c : chan)    (** the value is buffered *)
  | SendBlock            (** the buffer is full: the sender waits *)
  | SendPanic.           (** send on closed channel *)

Inductive recv_result :=
  | RecvVal (x : Z) (c : chan)  (** [v, ok := <-c] with [ok = true] *)
  | RecvClosed                  (** [ok = false]: closed and empty *)
  | RecvBlock.                  (** open and empty: the receiver waits *)

(** [c <- x] on a buffered channel ([cap > 0]; the queue of the program
    is created with capacity 10). *)
Definition chan_send (c : chan) (x : Z) : send_result :=
  if ch_closed c then SendPanic
  else if Nat.ltb (length (ch_buf c)) (ch_cap c)
       then SendOk (mkChan (ch_buf c ++ [x]) (ch_cap c) false)
       else SendBlock.

(** [<-c]; a [for v := range c] loop ends on [RecvClosed]. *)
Definition chan_recv (c : chan) : recv_result :=
  match ch_buf c with
  | x :: rest => RecvVal x (mkChan rest (ch_cap c) (ch_closed c))
  | [] => if ch_closed c then RecvClosed else RecvBlock
  end.

(** [close(c)]; [None] is the panic "close of closed channel". *)
Definition chan_close (c : chan) : option chan :=
  if ch_closed c then None else Some (mkChan (ch_buf c) (ch_cap c) true).

Definition make_chan (cap : nat) : chan := mkChan [] cap false.

(** [work := make(chan int, 10)] in [main]. *)
Definition work : chan := make_chan 10.

(** Operations a producer ([Enqueue]/[Close]) and the workers ([Dequeue])
    perform on the queue. *)
Inductive qop := QEnq (x : Z) | QDeq | QClose.

(** Runs a schedule of queue operations. [None]: some operation of the
    schedule blocks or panics, so the schedule cannot happen. The second
    component lists what every [QDeq] returned: [Some x] for a job,
    [None] for [ok = false]. *)
Fixpoint run_q (c : chan) (ops : list qop) : option (chan * list (option Z)) :=
  match ops with
  | [] => Some (c, [])
  | QEnq x :: ops' =>
      match chan_send c x with
      | SendOk c' => run_q c' ops'
      | _ => None
      end
  | QDeq :: ops' =>
      match chan_recv c with
      | RecvVal x c' =>
          match run_q c' ops' with
          | Some (c'', outs) => Some (c'', Some x :: outs)
          | None => None
          end
      | RecvClosed =>
          match run_q c ops' with
          | Some (c'', outs) => Some (c'', None :: outs)
          | None => None
          end
      | RecvBlock => None
      end
  | QClose :: ops' =>
      match chan_close c with
      | Some c' => run_q c' ops'
      | None => None
      end
  end.

Fixpoint enqueued (ops : list qop) : list Z :=
  match ops with
  | [] => []
  | QEnq x :: ops' => x :: enqueued ops'
  | _ :: ops' => enqueued ops'
  end.

Fixpoint delivered (outs : list (option Z)) : list Z :=
  match outs with
  | [] => []
  | Some x :: outs' => x :: delivered outs'
  | None :: outs' => delivered outs'
  end.

End Chan.

(* ================================================================== *)
(** ** patterns/foptions.go *)

Module Options.

(** The [net/http] types the builders fill in. *)
Module http.

Record Transport := mkTransport {
  MaxIdleConns : Z;
  MaxIdleConnsPerHost : Z;
  MaxConnsPerHost : Z;
  IdleConnTimeout : Z;        (** time.Duration, in nanoseconds *)
  TLSHandshakeTimeout : Z;
  ExpectContinueTimeout : Z;
  DialTimeout : Z;
  DialKeepAlive : Z;
  ForceAttemptHTTP2 : bool
}.

(** [http.RoundTripper] values a [Client] can hold. *)
Inductive RoundTripper :=
  | DefaultTransport                 (** [http.DefaultTransport] *)
  | TransportPtr (t : Transport).    (** a [*http.Transport] built here *)

Record Client := mkClient {
  ClTransport : RoundTripper;        (** field [Transport] *)
  ClTimeout : Z                      (** field [Timeout], nanoseconds *)
}.

End http.

Record ClientWrapper := mkClientWrapper { Cl : http.Client }.
Record TransportWrapper := mkTransportWrapper { Tr : http.Transport }.

Definition ClientOption := ClientWrapper -> ClientWrapper.
Definition TransportOption := TransportWrapper -> TransportWrapper.

Definition Second : Z := 1000000000.

Definition NewClientWrapper (opts : list ClientOption) : ClientWrapper :=
  let c := http.mkClient http.DefaultTransport 0 in
  let cl := mkClientWrapper c in
  fold_left (fun cl opt => opt cl) opts cl.

Definition Timeout (t : Z) : ClientOption :=
  fun c => mkClientWrapper (http.mkClient (http.ClTransport (Cl c)) t).

Definition Transport (tr : TransportWrapper) : ClientOption :=
  fun c => mkClientWrapper (http.mkClient (http.TransportPtr (Tr tr)) (http.ClTimeout (Cl c))).

Definition NewTransportWrapper (opts : list TransportOption) : TransportWrapper :=
  let t := {| http.MaxIdleConns := 100; http.MaxIdleConnsPerHost := 0;
              http.MaxConnsPerHost := 0; http.IdleConnTimeout := 90 * Second;
              http.TLSHandshakeTimeout := 10 * Second;
              http.ExpectContinueTimeout := 1 * Second; http.DialTimeout := 30 * Second;
              http.DialKeepAlive := 30 * Second; http.ForceAttemptHTTP2 := true |} in
  let tr := mkTransportWrapper t in
  fold_left (fun tr opt => opt tr) opts tr.

(** [t.Tr.<field> = v]: the wrapper owns a fresh [*http.Transport], so a
    write through the pointer is a functional update of the record. *)
Definition set_MaxIdleConns (t : http.Transport) (v : Z) : http.Transport :=
  let 'http.mkTransport _ b c d e f g h i := t in http.mkTransport v b c d e f g h i.
Definition set_MaxIdleConnsPerHost (t : http.Transport) (v : Z) : http.Transport :=
  let 'http.mkTransport a _ c d e f g h i := t in http.mkTransport a v c d e f g h i.
Definition set_MaxConnsPerHost (t : http.Transport) (v : Z) : http.Transport :=
  let 'http.mkTransport a b _ d e f g h i := t in http.mkTransport a b v d e f g h i.
Definition set_IdleConnTimeout (t : http.Transport) (v : Z) : http.Transport :=
  let 'http.mkTransport a b c _ e f g h i := t in http.mkTransport a b c v e f g h i.

Definition MaxIdleCons (ic : Z) : TransportOption :=
  fun t => mkTransportWrapper (set_MaxIdleConns (Tr t) ic).
Definition MaxIdleConsPerHost (ich : Z) : TransportOption :=
  fun t => mkTransportWrapper (set_MaxIdleConnsPerHost (Tr t) ich).
Definition MaxConsPerHost (cph : Z) : TransportOption :=
  fun t => mkTransportWrapper (set_MaxConnsPerHost (Tr t) cph).
Definition IdleConTimeout (ict : Z) : TransportOption :=
  fun t => mkTransportWrapper (set_IdleConnTimeout (Tr t) ict).

(** The options the package exports, as data. *)
Inductive ClientOpt := OTimeout (t : Z) | OTransport (tr : TransportWrapper).

Definition client_option (o : ClientOpt) : ClientOption :=
  match o with OTimeout t => Timeout t | OTransport tr => Transport tr end.

Inductive TransportOpt :=
  | OMaxIdleCons (ic : Z)
  | OMaxIdleConsPerHost (ich : Z)
  | OMaxConsPerHost (cph : Z)
  | OIdleConTimeout (ict : Z).

Definition transport_option (o : TransportOpt) : TransportOption :=
  match o with
  | OMaxIdleCons v => MaxIdleCons v
  | OMaxIdleConsPerHost v => MaxIdleConsPerHost v
  | OMaxConsPerHost v => MaxConsPerHost v
  | OIdleConTimeout v => IdleConTimeout v
  end.

(** The values the options of a list give one field, left to right. *)
Fixpoint picked {O V : Type} (sel : O -> option V) (os : list O) : list V :=
  match os with
  | [] => []
  | o :: os' => match sel o with Some v => v :: picked sel os' | None => picked sel os' end
  end.

Definition sel_timeout (o : ClientOpt) : option Z :=
  match o with OTimeout t => Some t | _ => None end.
Definition sel_transport (o : ClientOpt) : option http.RoundTripper :=
  match o with OTransport tr => Some (http.TransportPtr (Tr tr)) | _ => None end.
Definition sel_max_idle (o : TransportOpt) : option Z :=
  match o with OMaxIdleCons v => Some v | _ => None end.
Definition sel_max_idle_host (o : TransportOpt) : option Z :=
  match o with OMaxIdleConsPerHost v => Some v | _ => None end.
Definition sel_max_conns_host (o : TransportOpt) : option Z :=
  match o with OMaxConsPerHost v => Some v | _ => None end.
Definition sel_idle_timeout (o : TransportOpt) : option Z :=
  match o with OIdleConTimeout v => Some v | _ => None end.

End Options.

(* ================================================================== *)
(** ** patterns/limiter/client-limiter.go *)

Module Pool.
Import Chan.

(** Where [startWorker] is. *)
Inductive wpc :=
  | WRange                   (** at [for ww := range c.queue] *)
  | WSelect (ww : Z)         (** holds job [ww], entering the [select]: its
                                 channel operand [c.done] is not evaluated yet *)
  | WSelectOn (ww : Z) (ch : nat)
      (** holds job [ww], in the [select] with [c.done] evaluated to the
          done channel [ch] *)
  | WReq (ww : Z) (last : bool)
      (** about to call [c.request(ww)]; [last]: the [case <-c.done]
          branch was taken, so [return] follows the request *)
  | WExited.                 (** returned; [defer c.limit.Done()] has run *)

(** Which statement started a worker goroutine (bookkeeping only). *)
Inductive origin :=
  | OMain                    (** the [ctrl.wgroup()] call in [main] *)
  | OStart (k : nat)         (** the [k]-th [go c.wgroup()] of the start handler *)
  | OAdd.                    (** the addWorker handler *)

Record worker := mkWorker { w_pc : wpc; w_origin : origin }.

(** Where a goroutine running the stop handler is. *)
Inductive spc :=
  | SSend (ch : nat)         (** blocked in [c.done <- struct{}{}] on channel [ch] *)
  | SClose                   (** at [close(c.done)] *)
  | SReturned                (** the handler returned *)
  | SPanicked.               (** the handler panicked *)

(** [main]: running its own [ctrl.wgroup()] loop at [i], waiting for the
    producer ([wg.Wait()]), or past [close(work)]. *)
Inductive mpc := MWgroup (i : nat) | MWait | MClosed.

Inductive event :=
  | EvStop                   (** the stop handler was invoked *)
  | EvReq (w : nat) (ww : Z). (** worker [w] called [c.request(ww)] *)

Record state := mkState {
  queue : chan;              (** [c.queue] *)
  dones : list bool;         (** every [done] channel made so far: [true] once closed *)
  cur : nat;                 (** [c.done] is [dones !! cur] *)
  limit : Z;                 (** counter of the [sync.WaitGroup] [c.limit] *)
  workers : list worker;     (** every [startWorker] goroutine started *)
  stops : list spc;          (** every invocation of the stop handler *)
  wgroups : list nat;        (** loop index [i] of every [go c.wgroup()] *)
  prod : list Z;             (** jobs the producer goroutine has still to send *)
  main_pc : mpc;
  halted : option Z;         (** the process exited, with this status *)
  log : list event
}.

(** The only nondeterminism left to the scheduler: which goroutine moves,
    and whether a downstream call fails. *)
Inductive label :=
  | LWorker (i : nat)        (** worker [i] runs its next statement *)
  | LFail (i : nat)          (** worker [i]'s request gets an error from [Get] *)
  | LStopG (k : nat)         (** stop-handler goroutine [k] runs its next statement *)
  | LWgroup (k : nat)        (** [k]-th [go c.wgroup()] runs one iteration *)
  | LProducer                (** the producer goroutine sends its next job *)
  | LMain                    (** [main] runs its next statement *)
  | LCallStop                (** an HTTP request on /stop *)
  | LCallStart               (** an HTTP request on /start *)
  | LCallAdd                 (** an HTTP request on /worker/add *)
  | LServeErr.               (** [http.ListenAndServe] in [ctrl.run] returns an
                                 error: [log.Fatal] exits with status 1 *)

(** Field updates. *)
Definition set_queue (s : state) (q : chan) : state :=
  mkState q (dones s) (cur s) (limit s) (workers s) (stops s) (wgroups s)
    (prod s) (main_pc s) (halted s) (log s).
Definition set_dones (s : state) (d : list bool) : state :=
  mkState (queue s) d (cur s) (limit s) (workers s) (stops s) (wgroups s)
    (prod s) (main_pc s) (halted s) (log s).
Definition set_cur (s : state) (n : nat) : state :=
  mkState (queue s) (dones s) n (limit s) (workers s) (stops s) (wgroups s)
    (prod s) (main_pc s) (halted s) (log s).
Definition set_limit (s : state) (n : Z) : state :=
  mkState (queue s) (dones s) (cur s) n (workers s) (stops s) (wgroups s)
    (prod s) (main_pc s) (halted s) (log s).
Definition set_workers (s : state) (ws : list worker) : state :=
  mkState (queue s) (dones s) (cur s) (limit s) ws (stops s) (wgroups s)
    (prod s) (main_pc s) (halted s) (log s).
Definition set_stops (s : state) (ss : list spc) : state :=
  mkState (queue s) (dones s) (cur s) (limit s) (workers s) ss (wgroups s)
    (prod s) (main_pc s) (halted s) (log s).
Definition set_wgroups (s : state) (g : list nat) : state :=
  mkState (queue s) (dones s) (cur s) (limit s) (workers s) (stops s) g
    (prod s) (main_pc s) (halted s) (log s).
Definition set_prod (s : state) (p : list Z) : state :=
  mkState (queue s) (dones s) (cur s) (limit s) (workers s) (stops s) (wgroups s)
    p (main_pc s) (halted s) (log s).
Definition set_main_pc (s : state) (m : mpc) : state :=
  mkState (queue s) (dones s) (cur s) (limit s) (workers s) (stops s) (wgroups s)
    (prod s) m (halted s) (log s).
Definition set_halted (s : state) (h : option Z) : state :=
  mkState (queue s) (dones s) (cur s) (limit s) (workers s) (stops s) (wgroups s)
    (prod s) (main_pc s) h (log s).
Definition emit (s : state) (e : event) : state :=
  mkState (queue s) (dones s) (cur s) (limit s) (workers s) (stops s) (wgroups s)
    (prod s) (main_pc s) (halted s) (log s ++ [e]).

(** Is done channel [ch] closed? *)
Definition done_closed (s : state) (ch : nat) : bool :=
  match dones s !! ch with Some b => b | None => false end.

(** Go keeps the senders blocked on a channel in a FIFO queue; a receiver
    pairs with the first of them. *)
Fixpoint first_sender (ch : nat) (ss : list spc) : option nat :=
  match ss with
  | [] => None
  | SSend ch' :: ss' =>
      if Nat.eqb ch ch' then Some 0%nat
      else option_map S (first_sender ch ss')
  | _ :: ss' => option_map S (first_sender ch ss')
  end.

Definition set_wpc (s : state) (i : nat) (w : worker) (p : wpc) : state :=
  set_workers s (<[i := mkWorker p (w_origin w)]> (workers s)).

(** [c.limit.Add(1); go c.startWorker()]: [limit] is never [Wait]ed on,
    so running both statements as one step is unobservable. *)
Definition spawn (s : state) (o : origin) : state :=
  set_workers (set_limit s (limit s + 1)) (workers s ++ [mkWorker WRange o]).

(** One statement of [startWorker] for worker [i]. *)
Definition worker_step (s : state) (i : nat) (w : worker) : option state :=
  match w_pc w with
  | WRange =>
      match chan_recv (queue s) with
      | RecvVal x q' => Some (set_wpc (set_queue s q') i w (WSelect x))
      | RecvClosed => Some (set_limit (set_wpc s i w WExited) (limit s - 1))
      | RecvBlock => None
      end
  | WSelect ww =>
      (* entering the select evaluates its operand c.done *)
      Some (set_wpc s i w (WSelectOn ww (cur s)))
  | WSelectOn ww ch =>
      (* select { case <-ch: ...  default: ... } on the channel evaluated *)
      if done_closed s ch then Some (set_wpc s i w (WReq ww true))
      else match first_sender ch (stops s) with
           | Some k => Some (set_stops (set_wpc s i w (WReq ww true))
                                       (<[k := SClose]> (stops s)))
           | None => Some (set_wpc s i w (WReq ww false))
           end
  | WReq ww last =>
      (* c.request(ww) succeeds *)
      let s1 := emit s (EvReq i ww) in
      if last then Some (set_limit (set_wpc s1 i w WExited) (limit s - 1))
      else Some (set_wpc s1 i w WRange)
  | WExited => None
  end.

(** The whole program: one atomic step of the goroutine named by the label.
    An exited process makes no more steps. *)
Definition step (s : state) (l : label) : option state :=
  match halted s with
  | Some _ => None
  | None =>
  match l with
  | LWorker i =>
      match workers s !! i with
      | Some w => worker_step s i w
      | None => None
      end
  | LFail i =>
      (* c.request: err != nil -> fmt.Println(err); os.Exit(1) *)
      match workers s !! i with
      | Some (mkWorker (WReq ww _) _) =>
          Some (set_halted (emit s (EvReq i ww)) (Some 1))
      | _ => None
      end
  | LStopG k =>
      match stops s !! k with
      | Some (SSend ch) =>
          (* a send on a closed channel panics, also while blocked *)
          if done_closed s ch then Some (set_stops s (<[k := SPanicked]> (stops s)))
          else None
      | Some SClose =>
          if done_closed s (cur s)
          then Some (set_stops s (<[k := SPanicked]> (stops s)))
          else Some (set_stops (set_dones s (<[cur s := true]> (dones s)))
                               (<[k := SReturned]> (stops s)))
      | _ => None
      end
  | LWgroup k =>
      match wgroups s !! k with
      | Some i =>
          if Nat.ltb i 5
          then Some (set_wgroups (spawn s (OStart k)) (<[k := S i]> (wgroups s)))
          else None
      | None => None
      end
  | LProducer =>
      match prod s with
      | [] => None
      | x :: rest =>
          match chan_send (queue s) x with
          | SendOk q' => Some (set_prod (set_queue s q') rest)
          | SendBlock => None
          | SendPanic => Some (set_halted s (Some 2))
          end
      end
  | LMain =>
      match main_pc s with
      | MWgroup i =>
          if Nat.ltb i 5 then Some (set_main_pc (spawn s OMain) (MWgroup (S i)))
          else Some (set_main_pc s MWait)
      | MWait =>
          (* wg.Wait() returns once the producer is done; then close(work) *)
          match prod s with
          | [] =>
              match chan_close (queue s) with
              | Some q' => Some (set_main_pc (set_queue s q') MClosed)
              | None => Some (set_halted s (Some 2))
              end
          | _ => None
          end
      | MClosed =>
          (* main returns: the process exits with status 0, whatever the
             other goroutines are doing *)
          Some (set_halted s (Some 0))
      end
  | LCallStop =>
      (* c.done <- struct{}{} evaluates c.done first *)
      Some (set_stops (emit s EvStop) (stops s ++ [SSend (cur s)]))
  | LCallStart =>
      (* c.done = make(chan struct{}); go c.wgroup() *)
      Some (set_wgroups (set_cur (set_dones s (dones s ++ [false])) (length (dones s)))
                        (wgroups s ++ [0%nat]))
  | LCallAdd => Some (spawn s OAdd)
  | LServeErr => Some (set_halted s (Some 1))
  end
  end.

(** Runs a schedule. *)
Fixpoint run (s : state) (ls : list label) : option state :=
  match ls with
  | [] => Some s
  | l :: ls' =>
      match step s l with
      | Some s' => run s' ls'
      | None => None
      end
  end.

(** The program state when [main] starts: [work] of capacity [cap], an
    open [done], the producer about to send [jobs], and [main] about to
    run [ctrl.wgroup()]. *)
Definition init (cap : nat) (jobs : list Z) : state :=
  mkState (make_chan cap) [false] 0%nat 0 [] [] [] jobs (MWgroup 0) None [].

(** [main] as written: capacity 10 and jobs 0 .. 9999. *)
Definition main_state : state :=
  init 10 (map Z.of_nat (seq 0 10000)).

(** Jobs worker [w] called [request] on after the first invocation of the
    stop handler ([stopped]: that invocation is already behind). *)
Fixpoint after_stop_jobs (w : nat) (stopped : bool) (l : list event) : nat :=
  match l with
  | [] => 0%nat
  | EvStop :: l' => after_stop_jobs w true l'
  | EvReq i _ :: l' =>
      ((if stopped && Nat.eqb i w then 1 else 0) + after_stop_jobs w stopped l')%nat
  end.

(** The jobs requested, in order. *)
Fixpoint requested (l : list event) : list Z :=
  match l with
  | [] => []
  | EvReq _ ww :: l' => ww :: requested l'
  | EvStop :: l' => requested l'
  end.

Definition alive (w : worker) : bool :=
  match w_pc w with WExited => false | _ => true end.

(** Workers that have not returned. *)
Definition live (ws : list worker) : nat := length (List.filter alive ws).

Definition origin_eqb (o o' : origin) : bool :=
  match o, o' with
  | OMain, OMain | OAdd, OAdd => true
  | OStart k, OStart k' => Nat.eqb k k'
  | _, _ => false
  end.

(** Workers started by the statement [o]. *)
Definition count_origin (o : origin) (ws : list worker) : nat :=
  length (List.filter (fun w => origin_eqb (w_origin w) o) ws).

Definition worker_spawned_by_main (m : mpc) : nat :=
  match m with MWgroup i => i | _ => 5%nat end.

(** A schedule from [main_state]: two workers start, the producer queues
    jobs 0 .. 3, /stop is requested; worker 0 takes job 0 and, in its
    [select], receives the stop value; worker 1 runs jobs 1 and 2 through
    [default] before the handler reaches [close]; after it, worker 1 takes
    job 3, its [select] finds the channel closed, and it runs job 3 and
    returns; worker 0 runs job 0 and returns. *)
Definition stop_race_schedule : list label :=
  [LMain; LMain; LProducer; LProducer; LProducer; LProducer; LCallStop;
   LWorker 0; LWorker 0; LWorker 0;
   LWorker 1; LWorker 1; LWorker 1; LWorker 1; LWorker 1; LWorker 1; LWorker 1; LWorker 1;
   LStopG 0; LWorker 1; LWorker 1; LWorker 1; LWorker 1; LWorker 0].

(** /stop requested twice: the first handler completes, then the second runs. *)
Definition double_stop_schedule : list label :=
  [LMain; LProducer; LWorker 0; LWorker 0; LCallStop; LWorker 0; LStopG 0; LCallStop; LStopG 1].

(** One worker takes job 0 and its [Get] fails. *)
Definition failing_request_schedule : list label :=
  [LMain; LProducer; LWorker 0; LWorker 0; LWorker 0; LFail 0].

(** The pool of the C7 scenario: a queue of capacity 2, one worker already
    started (the limit counter at 1), the producer holding jobs 1, 2, 3,
    [main] waiting for it before [close]. *)
Definition scenario_state : state :=
  mkState (make_chan 2) [false] 0%nat 1 [mkWorker WRange OAdd] [] [] [1; 2; 3] MWait None [].

(** Steps of the scenario: the worker, the producer and [main]; no
    control-plane request, no failing [Get]. *)
Definition scenario_label (l : label) : bool :=
  match l with LWorker _ | LProducer | LMain => true | _ => false end.

(** The waitgroup invariant of C9. *)
Definition wg_inv (s : state) : Prop :=
  limit s = Z.of_nat (live (workers s))
  /\ count_origin OMain (workers s) = worker_spawned_by_main (main_pc s)
  /\ (forall i, main_pc s = MWgroup i -> (i <= 5)%nat)
  /\ (forall k i, wgroups s !! k = Some i ->
        (i <= 5)%nat /\ count_origin (OStart k) (workers s) = i)
  /\ (forall k, wgroups s !! k = None -> count_origin (OStart k) (workers s) = 0%nat).

(** The job a worker holds between [range] and the end of [request]. *)
Definition held (p : wpc) : list Z :=
  match p with WSelect x | WSelectOn x _ | WReq x _ => [x] | _ => [] end.

(** The state a schedule reaches ([s] itself if the schedule blocks). *)
Definition after (s : state) (ls : list label) : state :=
  match run s ls with Some s' => s' | None => s end.

(** Invariant of the states the C7 scenario reaches. *)
Definition scenario_inv (s : state) : Prop :=
  (halted s = None \/ (halted s = Some 0 /\ main_pc s = MClosed)) /\ stops s = [] /\ dones s = [false] /\ cur s = 0%nat
  /\ ch_cap (queue s) = 2%nat
  /\ (main_pc s = MWait \/ main_pc s = MClosed)
  /\ (ch_closed (queue s) = true <-> main_pc s = MClosed)
  /\ (main_pc s = MClosed -> prod s = [])
  /\ exists w, workers s = [w]
     /\ requested (log s) ++ held (w_pc w) ++ ch_buf (queue s) ++ prod s = [1; 2; 3]
     /\ (forall x last, w_pc w = WReq x last -> last = false)
     /\ (w_pc w = WExited -> ch_closed (queue s) = true /\ ch_buf (queue s) = [])
     /\ limit s = (if alive w then 1 else 0).

Definition phase (p : wpc) : nat :=
  match p with
  | WRange => 1 | WSelect _ => 4 | WSelectOn _ _ => 3 | WReq _ _ => 2 | WExited => 0
  end%nat.

(** Decreases at every step of the scenario. *)
Definition scenario_measure (s : state) : nat :=
  (5 * length (prod s) + 4 * length (ch_buf (queue s))
   + List.list_sum (map (fun w => phase (w_pc w)) (workers s))
   + (match main_pc s with MClosed => 0 | _ => 1 end)
   + (match halted s with None => 1 | Some _ => 0 end))%nat.

Definition in_hand (ws : list worker) : list Z :=
  concat (map (fun w => held (w_pc w)) ws).

Definition jobs_at (s : state) : list Z :=
  requested (log s) ++ in_hand (workers s) ++ ch_buf (queue s) ++ prod s.

(** A stop handler blocked on a done channel that is not the current one,
    and no worker in a [select] on that channel. *)
Definition stuck_stop (k ch : nat) (t : state) : Prop :=
  stops t !! k = Some (SSend ch) /\ ch <> cur t /\ (ch < length (dones t))%nat
  /\ done_closed t ch = false
  /\ (forall i w ww, workers t !! i = Some w -> w_pc w <> WSelectOn ww ch).

(** [c.done] is the open channel [c], and every stop handler has returned
    or panicked. *)
Definition quiet (c : nat) (t : state) : Prop :=
  cur t = c /\ done_closed t c = false
  /\ (forall k x, stops t !! k = Some x -> x = SReturned \/ x = SPanicked).

(** Requests a worker at [p] can still make while [c.done] is the closed
    channel [c]. *)
Definition budget (c : nat) (p : wpc) : nat :=
  match p with
  | WRange | WSelect _ => 1
  | WSelectOn _ ch => if Nat.eqb ch c then 1 else 2
  | WReq _ last => if last then 1 else 2
  | WExited => 0
  end%nat.

Definition budget_at (c : nat) (ws : list worker) (i : nat) : nat :=
  match ws !! i with Some w => budget c (w_pc w) | None => 1%nat end.

Fixpoint reqs_by (i : nat) (l : list event) : nat :=
  match l with
  | [] => 0
  | EvReq j _ :: l' => (if Nat.eqb i j then 1 else 0) + reqs_by i l'
  | EvStop :: l' => reqs_by i l'
  end%nat.

Definition potential (s : state) (i : nat) : nat :=
  (reqs_by i (log s)
   + match halted s with None => budget_at (cur s) (workers s) i | Some _ => 0 end)%nat.

Definition queue_inv (s : state) : Prop :=
  (halted s = None \/ halted s = Some 1 \/ (halted s = Some 0 /\ main_pc s = MClosed))
  /\ (ch_closed (queue s) = true <-> main_pc s = MClosed)
  /\ (main_pc s = MClosed -> prod s = []).

Definition main_only (s : state) : Prop :=
  wgroups s = [] /\ Forall (fun w => w_origin w = OMain) (workers s).

(** Stop handlers only ever send on done channels made so far. *)
Definition chans_inv (s : state) : Prop :=
  (cur s < length (dones s))%nat
  /\ forall k ch, stops s !! k = Some (SSend ch) -> (ch < length (dones s))%nat.

End Pool.

(* ================================================================== *)
(** ** Properties of the queue *)

Module ChanFacts.
Import Chan.

Lemma run_q_flow (c : chan) (ops : list qop) c' outs :
  run_q c ops = Some (c', outs) ->
  delivered outs ++ ch_buf c' = ch_buf c ++ enqueued ops.
Proof.
  revert c c' outs; induction ops as [|op ops IH]; intros c c' outs H; simpl in H.
  - injection H as <- <-. simpl. by rewrite app_nil_r.
  - destruct op as [x| |]; simpl.
    + unfold chan_send in H. destruct (ch_closed c) eqn:Hc; [discriminate|].
      destruct (Nat.ltb _ _); [|discriminate].
      apply IH in H. simpl in H. rewrite H. by rewrite <- app_assoc.
    + unfold chan_recv in H. destruct (ch_buf c) as [|y rest] eqn:Hb.
      * destruct (ch_closed c); [|discriminate].
        destruct (run_q c ops) as [[c1 o1]|] eqn:Hr; [|discriminate].
        injection H as <- <-. simpl. apply IH in Hr. by rewrite Hr, Hb.
      * destruct (run_q _ ops) as [[c1 o1]|] eqn:Hr; [|discriminate].
        injection H as <- <-. apply IH in Hr. simpl in *. by rewrite Hr.
    + unfold chan_close in H. destruct (ch_closed c); [discriminate|].
      apply IH in H. by simpl in H.
Qed.

Lemma run_q_drained (c : chan) (ops : list qop) c' outs :
  ch_closed c = true -> ch_buf c = [] ->
  run_q c ops = Some (c', outs) -> enqueued ops = [] /\ delivered outs = [].
Proof.
  intros Hc Hb. revert c' outs; induction ops as [|op ops IH]; intros c' outs H; simpl in H.
  - by injection H as <- <-.
  - destruct op as [x| |]; simpl.
    + unfold chan_send in H. by rewrite Hc in H.
    + unfold chan_recv in H. rewrite Hb, Hc in H.
      destruct (run_q c ops) as [[c1 o1]|] eqn:Hr; [|discriminate].
      injection H as <- <-. simpl. by apply (IH c1).
    + unfold chan_close in H. by rewrite Hc in H.
Qed.

Lemma run_q_first_closed (c : chan) (ops : list qop) c' outs pre post :
  run_q c ops = Some (c', outs) -> outs = pre ++ None :: post ->
  delivered pre = ch_buf c ++ enqueued ops.
Proof.
  revert c c' outs pre; induction ops as [|op ops IH]; intros c c' outs pre H Ho; simpl in H.
  - injection H as <- <-. by destruct pre.
  - destruct op as [x| |]; simpl.
    + unfold chan_send in H. destruct (ch_closed c) eqn:Hc; [discriminate|].
      destruct (Nat.ltb _ _); [|discriminate].
      rewrite (IH _ _ _ _ H Ho). simpl. by rewrite <- app_assoc.
    + unfold chan_recv in H. destruct (ch_buf c) as [|y rest] eqn:Hb.
      * destruct (ch_closed c) eqn:Hc; [|discriminate].
        destruct (run_q c ops) as [[c1 o1]|] eqn:Hr; [|discriminate].
        injection H as <- <-. destruct pre as [|o pre]; simpl in Ho.
        -- destruct (run_q_drained c ops c1 o1 Hc Hb Hr) as [-> _]. done.
        -- injection Ho as <- Ho. simpl. rewrite (IH _ _ _ _ Hr Ho), Hb. done.
      * destruct (run_q _ ops) as [[c1 o1]|] eqn:Hr; [|discriminate].
        injection H as <- <-. destruct pre as [|o pre]; simpl in Ho; [discriminate|].
        injection Ho as <- Ho. simpl. by rewrite (IH _ _ _ _ Hr Ho).
    + unfold chan_close in H. destruct (ch_closed c); [discriminate|].
      by rewrite (IH _ _ _ _ H Ho).
Qed.

Lemma chan_recv_closed_iff (c : chan) :
  chan_recv c = RecvClosed <-> ch_closed c = true /\ ch_buf c = [].
Proof.
  unfold chan_recv. destruct (ch_buf c); destruct (ch_closed c); split;
    intros H; (discriminate || done || (destruct H; discriminate)).
Qed.

Lemma chan_close_keeps (c c' : chan) : chan_close c = Some c' -> ch_buf c' = ch_buf c.
Proof. unfold chan_close. destruct (ch_closed c); [discriminate|]. by intros [= <-]. Qed.

Lemma run_q_bounded (c : chan) (ops : list qop) c' outs :
  (length (ch_buf c) <= ch_cap c)%nat -> run_q c ops = Some (c', outs) ->
  (length (ch_buf c') <= ch_cap c')%nat /\ ch_cap c' = ch_cap c.
Proof.
  revert c c' outs; induction ops as [|op ops IH]; intros c c' outs Hl H; simpl in H.
  - by injection H as <- <-.
  - destruct op as [x| |].
    + unfold chan_send in H. destruct (ch_closed c); [discriminate|].
      destruct (Nat.ltb _ _) eqn:Hlt; [|discriminate].
      apply Nat.ltb_lt in Hlt. apply IH in H; [done|]. simpl. rewrite length_app. simpl. lia.
    + unfold chan_recv in H. destruct (ch_buf c) as [|y rest] eqn:Hb.
      * destruct (ch_closed c); [|discriminate].
        destruct (run_q c ops) as [[c1 o1]|] eqn:Hr; [|discriminate].
        injection H as <- <-. apply (IH c c1 o1); [rewrite Hb; simpl in *; lia | done].
      * destruct (run_q _ ops) as [[c1 o1]|] eqn:Hr; [|discriminate].
        injection H as <- <-. apply IH in Hr; [done|]. simpl in *. lia.
    + unfold chan_close in H. destruct (ch_closed c); [discriminate|].
      apply IH in H; done.
Qed.

Lemma run_q_enqs_ok (c : chan) (xs : list Z) :
  ch_closed c = false -> (length (ch_buf c) + length xs <= ch_cap c)%nat ->
  run_q c (map QEnq xs) =
    Some (mkChan (ch_buf c ++ xs) (ch_cap c) false, []).
Proof.
  revert c; induction xs as [|x xs IH]; intros c Hc Hl; simpl.
  - rewrite app_nil_r. by destruct c; simpl in *; subst.
  - unfold chan_send. rewrite Hc. simpl in Hl.
    assert (Hlt : Nat.ltb (length (ch_buf c)) (ch_cap c) = true) by (apply Nat.ltb_lt; lia).
    rewrite Hlt. rewrite IH; simpl; [|done|rewrite length_app; simpl; lia].
    by rewrite <- app_assoc.
Qed.

End ChanFacts.

Module OptionsFacts.

(** Applying options that each keep a property keeps it. *)
Lemma fold_preserves {A : Type} (P : A -> Prop) (opts : list (A -> A)) (a : A) :
  (forall o x, In o opts -> P x -> P (o x)) -> P a ->
  P (fold_left (fun x opt => opt x) opts a).
Proof.
  revert a; induction opts as [|o opts IH]; intros a Ho Ha; simpl; [done|].
  apply IH; [intros o' x Hin; apply Ho; by right|]. apply Ho; [by left|done].
Qed.

End OptionsFacts.

Module PoolFacts.
Import Chan Pool.

Lemma filter_insert_len {A} (f : A -> bool) (ws : list A) (i : nat) (w w' : A) :
  ws !! i = Some w ->
  (length (List.filter f (<[i:=w']> ws)) + (if f w then 1 else 0) =
   length (List.filter f ws) + (if f w' then 1 else 0))%nat.
Proof.
  revert i; induction ws as [|v ws IH]; intros i H; [done|].
  destruct i as [|i]; simpl in *.
  - injection H as ->. destruct (f w), (f w'); simpl; lia.
  - specialize (IH i H). destruct (f v); simpl; lia.
Qed.

Lemma filter_snoc_len {A} (f : A -> bool) (ws : list A) (w : A) :
  length (List.filter f (ws ++ [w])) = (length (List.filter f ws) + (if f w then 1 else 0))%nat.
Proof.
  induction ws as [|v ws IH]; simpl; [by destruct (f w)|].
  destruct (f v); simpl; lia.
Qed.

Lemma lookup_insert_origin (ws : list worker) i w p :
  ws !! i = Some w -> forall o,
  count_origin o (<[i:=mkWorker p (w_origin w)]> ws) = count_origin o ws.
Proof.
  intros H o. unfold count_origin.
  pose proof (filter_insert_len (fun w => origin_eqb (w_origin w) o) ws i w
                (mkWorker p (w_origin w)) H) as E.
  simpl in E. lia.
Qed.

Lemma origin_eqb_refl o : origin_eqb o o = true.
Proof. destruct o; simpl; auto using Nat.eqb_refl. Qed.

Lemma origin_eqb_true o o' : origin_eqb o o' = true -> o = o'.
Proof.
  destruct o, o'; simpl; try done. intros H. apply Nat.eqb_eq in H. by subst.
Qed.

(** What one step of a worker changes. *)
Lemma worker_step_shape s i w s' :
  workers s !! i = Some w -> worker_step s i w = Some s' ->
  exists p, workers s' = <[i:=mkWorker p (w_origin w)]> (workers s)
    /\ limit s' = limit s - (if alive w then 1 else 0) + (if alive (mkWorker p (w_origin w)) then 1 else 0)
    /\ main_pc s' = main_pc s /\ wgroups s' = wgroups s /\ halted s' = halted s
    /\ dones s' = dones s /\ cur s' = cur s /\ prod s' = prod s.
Proof.
  intros Hw H. unfold worker_step, alive in *.
  destruct (w_pc w) as [|ww|ww ch|ww last|] eqn:Hp; simpl.
  - destruct (chan_recv (queue s)); try discriminate; injection H as <-.
    + eexists (WSelect x). simpl. repeat split; lia.
    + eexists WExited. simpl. repeat split; lia.
  - injection H as <-. eexists. simpl. repeat split; lia.
  - destruct (done_closed s ch); [|destruct (first_sender _ _)];
      injection H as <-; eexists; simpl; repeat split; lia.
  - destruct last; injection H as <-; eexists; simpl; repeat split; lia.
  - discriminate.
Qed.

Lemma spawn_counts s o o' :
  count_origin o' (workers (spawn s o)) =
    (count_origin o' (workers s) + (if origin_eqb o o' then 1 else 0))%nat.
Proof. unfold count_origin, spawn, set_workers. cbn [workers]. by rewrite filter_snoc_len. Qed.

Lemma spawn_live s o :
  live (workers (spawn s o)) = S (live (workers s)).
Proof. unfold live, spawn, set_workers. cbn [workers]. rewrite filter_snoc_len. simpl. lia. Qed.

Lemma wg_inv_ext s s' :
  limit s' = limit s -> workers s' = workers s -> main_pc s' = main_pc s ->
  wgroups s' = wgroups s -> wg_inv s -> wg_inv s'.
Proof. unfold wg_inv. intros -> -> -> ->. done. Qed.

(** Closes a case in which the step leaves the invariant's fields alone. *)
Local Ltac same Hinv := (eapply wg_inv_ext; [..|exact Hinv]; reflexivity).

Lemma wg_inv_step s l s' : wg_inv s -> step s l = Some s' -> wg_inv s'.
Proof.
  intros Hinv H. pose proof Hinv as (Hl & Hm & Hmi & Hg & Hg0).
  unfold step in H.
  destruct (halted s); [discriminate|].
  destruct l as [i|i|k|k| | | | | |].
  - destruct (workers s !! i) as [w|] eqn:Hw; [|discriminate].
    destruct (worker_step_shape s i w s' Hw H) as (p & Ews & El & Em & Eg & _).
    unfold wg_inv. rewrite Ews, Em, Eg.
    split; [|split; [|split; [|split]]].
    + rewrite El, Hl. unfold live.
      pose proof (filter_insert_len alive (workers s) i w (mkWorker p (w_origin w)) Hw) as E.
      destruct (alive w), (alive (mkWorker p (w_origin w))); simpl in *; lia.
    + by rewrite (lookup_insert_origin _ _ _ _ Hw).
    + done.
    + intros k j Hk. rewrite (lookup_insert_origin _ _ _ _ Hw). by apply Hg.
    + intros k Hk. rewrite (lookup_insert_origin _ _ _ _ Hw). by apply Hg0.
  - destruct (workers s !! i) as [[[| | |ww last|] o]|]; try discriminate.
    injection H as <-. same Hinv.
  - destruct (stops s !! k) as [[ch| | |]|]; try discriminate.
    + destruct (done_closed s ch); [|discriminate]. injection H as <-. same Hinv.
    + destruct (done_closed s (cur s)); injection H as <-; same Hinv.
  - destruct (wgroups s !! k) as [i|] eqn:Hk; [|discriminate].
    destruct (Nat.ltb i 5) eqn:Hi; [|discriminate]. apply Nat.ltb_lt in Hi.
    injection H as <-. unfold wg_inv. cbn [workers wgroups main_pc set_wgroups].
    split; [|split; [|split; [|split]]].
    + rewrite spawn_live. simpl. lia.
    + rewrite spawn_counts. simpl. lia.
    + done.
    + intros k' j Hk'. rewrite spawn_counts. simpl.
      destruct (decide (k = k')) as [<-|Hne].
      * rewrite list_lookup_insert_eq in Hk' by (eapply lookup_lt_Some; eauto).
        injection Hk' as <-. rewrite Nat.eqb_refl. destruct (Hg k i Hk). lia.
      * rewrite list_lookup_insert_ne in Hk' by done.
        apply Nat.eqb_neq in Hne. rewrite Hne. destruct (Hg k' j Hk'). lia.
    + intros k' Hk'. rewrite spawn_counts. simpl.
      destruct (decide (k = k')) as [<-|Hne].
      * apply lookup_ge_None in Hk'. rewrite length_insert in Hk'.
        apply lookup_lt_Some in Hk. lia.
      * rewrite list_lookup_insert_ne in Hk' by done.
        apply Nat.eqb_neq in Hne. rewrite Hne. rewrite Hg0; done.
  - destruct (prod s) as [|x rest]; [discriminate|].
    destruct (chan_send (queue s) x); try discriminate; injection H as <-; same Hinv.
  - destruct (main_pc s) as [i| |] eqn:Hmp.
    + destruct (Nat.ltb i 5) eqn:Hi; injection H as <-.
      * apply Nat.ltb_lt in Hi. unfold wg_inv. cbn [workers wgroups main_pc set_main_pc].
        split; [|split; [|split; [|split]]].
        -- rewrite spawn_live. simpl. lia.
        -- rewrite spawn_counts. simpl in *. lia.
        -- intros j [= <-]. lia.
        -- intros k j Hk. rewrite spawn_counts. simpl. rewrite Nat.add_0_r. by apply Hg.
        -- intros k Hk. rewrite spawn_counts. simpl. rewrite Nat.add_0_r. by apply Hg0.
      * apply Nat.ltb_ge in Hi. specialize (Hmi i eq_refl).
        unfold wg_inv. cbn [workers wgroups main_pc limit set_main_pc].
        simpl in Hm.
        split; [done|split; [simpl; lia|split; [by intros ? ?|split; done]]].
    + destruct (prod s); [|discriminate].
      destruct (chan_close (queue s)); injection H as <-; [|same Hinv].
      unfold wg_inv. cbn [workers wgroups main_pc limit set_main_pc set_queue].
      split; [done|split; [done|split; [by intros ? ?|split; done]]].
    + injection H as <-. same Hinv.
  - injection H as <-. same Hinv.
  - injection H as <-. unfold wg_inv.
    cbn [workers wgroups main_pc limit set_wgroups set_cur set_dones].
    split; [done|split; [done|split; [done|split]]].
    + intros k i Hk. apply lookup_app_Some in Hk as [Hk|[Hlen Hk]]; [by apply Hg|].
      apply list_lookup_singleton_Some in Hk as [Hk <-]. split; [lia|].
      apply Hg0. apply lookup_ge_None. lia.
    + intros k Hk. apply lookup_ge_None in Hk. rewrite length_app in Hk. simpl in Hk.
      apply Hg0. apply lookup_ge_None. lia.
  - injection H as <-. unfold wg_inv.
    split; [|split; [|split; [|split]]].
    + rewrite spawn_live. simpl. lia.
    + rewrite spawn_counts. simpl. lia.
    + done.
    + intros k j Hk. rewrite spawn_counts. simpl. rewrite Nat.add_0_r. by apply Hg.
    + intros k Hk. rewrite spawn_counts. simpl. rewrite Nat.add_0_r. by apply Hg0.
  - injection H as <-. same Hinv.
Qed.

Lemma wg_inv_run s ls s' : wg_inv s -> run s ls = Some s' -> wg_inv s'.
Proof.
  revert s; induction ls as [|l ls IH]; intros s Hi H; simpl in H.
  - by injection H as <-.
  - destruct (step s l) as [s1|] eqn:Hs; [|discriminate].
    apply (IH s1); [eapply wg_inv_step; eauto|done].
Qed.

Lemma wg_inv_init cap jobs : wg_inv (init cap jobs).
Proof.
  unfold wg_inv, init. cbn [limit workers main_pc wgroups].
  split; [done|split; [done|split; [intros i [= <-]; lia|split]]].
  - intros k i Hk. by rewrite lookup_nil in Hk.
  - done.
Qed.

Lemma requested_app l e : requested (l ++ [e]) = requested l ++ requested [e].
Proof. induction l as [|[|i x] l IH]; simpl; rewrite ?IH; done. Qed.

(** [main]'s return keeps the scenario invariant. *)
Lemma scenario_inv_halt s :
  scenario_inv s -> main_pc s = MClosed -> scenario_inv (set_halted s (Some 0)).
Proof. intros (_ & Rest) Hm. split; [by right|]. exact Rest. Qed.

Lemma scenario_inv_step s l s' :
  scenario_label l = true -> scenario_inv s -> step s l = Some s' -> scenario_inv s'.
Proof.
  intros Hl Hi H. pose proof Hi as (Hh & Hst & Hd & Hc & Hcap & Hm & Hcl & Hmp & w & Hws & Heq & Hlast & Hex & Hlim).
  assert (Hh0 : halted s = None) by (unfold step in H; destruct (halted s); [discriminate H|done]).
  unfold step in H. rewrite Hh0 in H.
  destruct l as [i| | | | | | | | |]; try discriminate Hl.
  - rewrite Hws in H. destruct i as [|i]; simpl in H; [|discriminate H].
    unfold worker_step in H. destruct (w_pc w) as [|x|x ch|x last|] eqn:Hp.
    + unfold chan_recv in H. destruct (ch_buf (queue s)) as [|y rest] eqn:Hb.
      * destruct (ch_closed (queue s)) eqn:Hq; [|discriminate H]. injection H as <-.
        unfold scenario_inv; cbn. rewrite Hws. simpl.
        rewrite Hq. repeat match goal with |- _ /\ _ => split; [assumption || done|] end.
        exists (mkWorker WExited (w_origin w)). simpl.
        split; [done|]. split; [rewrite Hb; simpl in Heq |- *; exact Heq|].
        split; [done|]. split; [by rewrite Hb|]. unfold alive in Hlim. rewrite ?Hp in Hlim. lia.
      * injection H as <-. unfold scenario_inv; cbn. rewrite Hws. simpl.
        repeat match goal with |- _ /\ _ => split; [assumption || done|] end.
        exists (mkWorker (WSelect y) (w_origin w)). simpl.
        split; [done|]. split; [simpl in Heq |- *; exact Heq|].
        split; [done|]. split; [done|]. unfold alive in *. by rewrite ?Hp in Hlim.
    + injection H as <-. unfold scenario_inv; cbn. rewrite Hws. simpl.
      repeat match goal with |- _ /\ _ => split; [assumption || done|] end.
      exists (mkWorker (WSelectOn x (cur s)) (w_origin w)). simpl.
      split; [done|]. split; [rewrite ?Hp in Heq; done|].
      split; [by intros ? ? [=]|]. split; [done|]. unfold alive in *. by rewrite ?Hp in Hlim.
    + assert (Hdc : done_closed s ch = false)
        by (unfold done_closed; rewrite Hd; destruct ch as [|[|]]; done).
      rewrite Hdc, Hst in H. simpl in H. injection H as <-.
      unfold scenario_inv; cbn. rewrite Hws. simpl.
      repeat match goal with |- _ /\ _ => split; [assumption || done|] end.
      exists (mkWorker (WReq x false) (w_origin w)). simpl.
      split; [done|]. split; [rewrite ?Hp in Heq; done|].
      split; [by intros ? ? [= _ <-]|]. split; [done|]. unfold alive in *. by rewrite ?Hp in Hlim.
    + rewrite (Hlast x last eq_refl) in H. injection H as <-.
      unfold scenario_inv; cbn. rewrite Hws. simpl.
      repeat match goal with |- _ /\ _ => split; [assumption || done|] end.
      exists (mkWorker WRange (w_origin w)). simpl.
      split; [done|]. split; [rewrite requested_app; simpl; rewrite ?Hp in Heq; simpl in Heq;
                              rewrite <- app_assoc; done|].
      split; [done|]. split; [done|]. unfold alive in *. by rewrite ?Hp in Hlim.
    + discriminate H.
  - destruct (prod s) as [|x rest] eqn:Hpr; [discriminate H|].
    unfold chan_send in H. destruct (ch_closed (queue s)) eqn:Hq.
    { specialize (Hmp (proj1 Hcl eq_refl)). congruence. }
    destruct (Nat.ltb _ _); [|discriminate H]. injection H as <-.
    unfold scenario_inv; cbn.
    split; [by left|split; [done|split; [done|split; [done|split; [done|]]]]].
    split; [done|]. split; [exact Hcl|].
    split; [intros Hmc; apply Hcl in Hmc; discriminate|].
    exists w. split; [done|]. split; [rewrite <- app_assoc; done|].
    split; [done|]. split; [intros Hw; specialize (Hex Hw); destruct Hex; discriminate|done].
  - destruct (main_pc s) as [i| |] eqn:Hmm; [destruct Hm; discriminate| |].
    + destruct (prod s) as [|x rest] eqn:Hpr; [|discriminate H].
      unfold chan_close in H. destruct (ch_closed (queue s)) eqn:Hq.
      { pose proof (proj1 Hcl eq_refl). discriminate. }
      injection H as <-. unfold scenario_inv; cbn.
      split; [by left|split; [done|split; [done|split; [done|split; [done|]]]]].
      split; [by right|]. split; [split; done|]. split; [done|].
      exists w. split; [done|]. split; [simpl; rewrite Hpr; exact Heq|].
      split; [done|]. split; [intros Hw; specialize (Hex Hw); destruct Hex; discriminate|done].
    + injection H as <-. by apply scenario_inv_halt.
Qed.

Lemma scenario_inv_run s ls s' :
  Forall (fun l => scenario_label l = true) ls -> scenario_inv s -> run s ls = Some s' ->
  scenario_inv s'.
Proof.
  revert s; induction ls as [|l ls IH]; intros s Hls Hi H; simpl in H.
  - by injection H as <-.
  - inversion Hls as [|? ? Hl Hls']; subst.
    destruct (step s l) as [s1|] eqn:Hs; [|discriminate].
    apply (IH s1); [done|eapply scenario_inv_step; eauto|done].
Qed.

Lemma scenario_inv_init : scenario_inv scenario_state.
Proof.
  unfold scenario_inv, scenario_state; cbn.
  split; [by left|]. do 4 (split; [done|]). split; [by left|]. split; [split; discriminate|].
  split; [discriminate|]. eexists. split; [done|]. split; [done|].
  split; [by intros ? ? [=]|]. split; [discriminate|done].
Qed.

(** A scenario state no step can leave is one where [main] has returned
    after [close(work)] and the process has exited with status 0. *)
Lemma scenario_terminal s :
  scenario_inv s -> (forall l, scenario_label l = true -> step s l = None) ->
  halted s = Some 0 /\ main_pc s = MClosed /\ ch_closed (queue s) = true.
Proof.
  intros (Hh & Hst & Hd & Hc & Hcap & Hm & Hcl & Hmp & w & Hws & Heq & Hlast & Hex & Hlim) Hstuck.
  destruct Hh as [Hh|[Hh Hmc]]; [exfalso|by split; [|split; [|apply Hcl]]].
  assert (Hma := Hstuck LMain eq_refl). unfold step in Hma. rewrite Hh in Hma.
  destruct Hm as [Hm|Hm]; rewrite Hm in Hma; [|discriminate Hma].
  assert (Hq : ch_closed (queue s) = false)
    by (apply not_true_is_false; intros E; apply Hcl in E; congruence).
  destruct (prod s) as [|x rest] eqn:Hps.
  - unfold chan_close in Hma. rewrite Hq in Hma. discriminate Hma.
  - assert (Hpr := Hstuck LProducer eq_refl). unfold step in Hpr. rewrite Hh, Hps in Hpr.
    unfold chan_send in Hpr. rewrite Hq, Hcap in Hpr.
    destruct (Nat.ltb _ 2) eqn:Hlt; [discriminate Hpr|].
    assert (Hw0 := Hstuck (LWorker 0) eq_refl). unfold step in Hw0. rewrite Hh, Hws in Hw0.
    simpl in Hw0. unfold worker_step in Hw0.
    destruct (w_pc w) as [|y|y ch|y last|] eqn:Hp.
    + unfold chan_recv in Hw0. destruct (ch_buf (queue s)) as [|b bs] eqn:Hb;
        [discriminate Hlt|discriminate Hw0].
    + discriminate Hw0.
    + destruct (done_closed s ch); [discriminate Hw0|].
      destruct (first_sender _ _); discriminate Hw0.
    + destruct last; discriminate Hw0.
    + destruct (Hex eq_refl) as [Hq' _]. congruence.
Qed.

Lemma scenario_measure_step s l s' :
  scenario_label l = true -> scenario_inv s -> step s l = Some s' ->
  (scenario_measure s' < scenario_measure s)%nat.
Proof.
  intros Hl (Hh & Hst & Hd & Hc & Hcap & Hm & Hcl & Hmp & w & Hws & Heq & Hlast & Hex & Hlim) H.
  assert (Hh0 : halted s = None) by (unfold step in H; destruct (halted s); [discriminate H|done]).
  unfold step in H. rewrite Hh0 in H. unfold scenario_measure.
  destruct l as [i| | | | | | | | |]; try discriminate Hl.
  - rewrite Hws in H. destruct i as [|i]; simpl in H; [|discriminate H].
    unfold worker_step in H. destruct (w_pc w) as [|x|x ch|x last|] eqn:Hp.
    + unfold chan_recv in H. destruct (ch_buf (queue s)) as [|y rest] eqn:Hb.
      * destruct (ch_closed (queue s)); [|discriminate H]. injection H as <-. cbn.
        rewrite ?Hws, ?Hb, ?Hh0; simpl; rewrite ?Hp; simpl; lia.
      * injection H as <-. cbn. rewrite ?Hws, ?Hb, ?Hh0; simpl; rewrite ?Hp; simpl; lia.
    + injection H as <-; cbn; rewrite ?Hws, ?Hh0; simpl; rewrite ?Hp; simpl; lia.
    + destruct (done_closed s ch); [|destruct (first_sender _ _)];
        injection H as <-; cbn; rewrite ?Hws, ?Hh0; simpl; rewrite ?Hp; simpl; lia.
    + destruct last; injection H as <-; cbn; rewrite ?Hws, ?Hh0; simpl; rewrite ?Hp; simpl; lia.
    + discriminate H.
  - destruct (prod s) as [|x rest] eqn:Hpr; [discriminate H|].
    unfold chan_send in H. destruct (ch_closed (queue s)).
    { specialize (Hmp (proj1 Hcl eq_refl)). congruence. }
    destruct (Nat.ltb _ _); [|discriminate H]. injection H as <-.
    cbn [prod queue workers main_pc halted set_prod set_queue ch_buf].
    rewrite length_app, Hh0. simpl. lia.
  - destruct (main_pc s) as [i| |] eqn:Hmm; [destruct Hm; discriminate| |].
    + destruct (prod s) eqn:Hpr; [|discriminate H].
      destruct (chan_close (queue s)) eqn:Hq.
      * injection H as <-. unfold chan_close in Hq. destruct (ch_closed (queue s)); [discriminate|].
        injection Hq as <-.
        cbn [prod queue workers main_pc halted set_main_pc set_queue ch_buf]. rewrite Hpr, Hh0. simpl. lia.
      * unfold chan_close in Hq. destruct (ch_closed (queue s)); [|discriminate].
        pose proof (proj1 Hcl eq_refl). discriminate.
    + injection H as <-. cbn [prod queue workers main_pc halted set_halted]. rewrite Hmm, Hh0. lia.
Qed.

Lemma scenario_acc :
  forall n s, (scenario_measure s < n)%nat -> scenario_inv s ->
  Acc (fun s' s => exists l, scenario_label l = true /\ step s l = Some s') s.
Proof.
  induction n as [|n IH]; intros s Hn Hi; [lia|].
  constructor. intros s' (l & Hl & Hs).
  apply IH; [|eapply scenario_inv_step; eauto].
  pose proof (scenario_measure_step s l s' Hl Hi Hs). lia.
Qed.

Lemma live_zero ws : live ws = 0%nat <-> Forall (fun w => w_pc w = WExited) ws.
Proof.
  unfold live. induction ws as [|w ws IH]; simpl; [split; auto|].
  rewrite Forall_cons. unfold alive at 1. destruct (w_pc w) eqn:Hp; simpl;
    rewrite <- IH; split; intros H; try (destruct H; discriminate); try discriminate; try done.
  all: by destruct H.
Qed.

Lemma first_sender_some ch ss k : first_sender ch ss = Some k -> ss !! k = Some (SSend ch).
Proof.
  revert k; induction ss as [|x ss IH]; intros k H; simpl in H; [discriminate|].
  destruct x as [ch'| | |];
    try (destruct (first_sender ch ss) as [k'|] eqn:E; simpl in H; [|discriminate];
         injection H as <-; simpl; by apply IH).
  destruct (Nat.eqb ch ch') eqn:Eq.
  - apply Nat.eqb_eq in Eq. subst. by injection H as <-.
  - destruct (first_sender ch ss) as [k'|] eqn:E; simpl in H; [|discriminate].
    injection H as <-. simpl. by apply IH.
Qed.

Lemma first_sender_none ch ss :
  (forall k, ss !! k <> Some (SSend ch)) -> first_sender ch ss = None.
Proof.
  destruct (first_sender ch ss) as [k|] eqn:E; [|done].
  intros H. apply first_sender_some in E. by destruct (H k).
Qed.

Lemma first_sender_exists ch ss k :
  ss !! k = Some (SSend ch) -> exists k', first_sender ch ss = Some k'.
Proof.
  revert k; induction ss as [|x ss IH]; intros k H; [discriminate H|].
  destruct k as [|k]; cbn in H.
  - injection H as ->. cbn. rewrite Nat.eqb_refl. by eexists.
  - destruct (IH k H) as [k' Hk']. cbn.
    destruct x as [ch'| | |]; [destruct (Nat.eqb ch ch'); [by eexists|]|..];
      rewrite Hk'; by eexists.
Qed.

(** Which steps change [dones]: only a stop handler's [close(c.done)] and
    the start handler's [make(chan struct{})]. *)
Lemma step_dones s l s' :
  step s l = Some s' ->
  dones s' = dones s
  \/ (exists k, l = LStopG k /\ stops s !! k = Some SClose /\ done_closed s (cur s) = false
        /\ dones s' = <[cur s := true]> (dones s) /\ stops s' = <[k := SReturned]> (stops s))
  \/ (l = LCallStart /\ dones s' = dones s ++ [false]).
Proof.
  intros H. unfold step in H. destruct (halted s); [discriminate|].
  destruct l as [i|i|k|k| | | | | |].
  - destruct (workers s !! i) as [w|] eqn:Hw; [|discriminate].
    left. by destruct (worker_step_shape s i w s' Hw H) as (p & _ & _ & _ & _ & _ & Ed & _).
  - destruct (workers s !! i) as [[[| | |ww last|] o]|]; try discriminate.
    injection H as <-. by left.
  - destruct (stops s !! k) as [[ch| | |]|] eqn:Hk; try discriminate.
    + destruct (done_closed s ch); [|discriminate]. injection H as <-. by left.
    + destruct (done_closed s (cur s)) eqn:Hc; injection H as <-; [by left|].
      right; left. by exists k.
  - destruct (wgroups s !! k); [|discriminate].
    destruct (Nat.ltb _ 5); [|discriminate]. injection H as <-. by left.
  - destruct (prod s) as [|x rest]; [discriminate|].
    destruct (chan_send (queue s) x); try discriminate; injection H as <-; by left.
  - destruct (main_pc s) as [i| |].
    + destruct (Nat.ltb i 5); injection H as <-; by left.
    + destruct (prod s); [|discriminate].
      destruct (chan_close (queue s)); injection H as <-; by left.
    + injection H as <-. by left.
  - injection H as <-. by left.
  - injection H as <-. by right; right.
  - injection H as <-. by left.
  - injection H as <-. by left.
Qed.

(** How a step can change what stop goroutine [k] is doing. *)
Lemma step_stops s l s' k x :
  step s l = Some s' -> stops s !! k = Some x ->
  stops s' !! k = Some x
  \/ (l = LStopG k /\ stops s' !! k = Some SPanicked
      /\ (forall ch, x = SSend ch -> done_closed s ch = true))
  \/ (l = LStopG k /\ x = SClose /\ stops s' !! k = Some SReturned
      /\ done_closed s (cur s) = false)
  \/ (exists i w ww ch, l = LWorker i /\ workers s !! i = Some w /\ w_pc w = WSelectOn ww ch
      /\ x = SSend ch /\ done_closed s ch = false /\ stops s' !! k = Some SClose).
Proof.
  intros H Hk. unfold step in H. destruct (halted s); [discriminate|].
  destruct l as [i|i|k'|k'| | | | | |].
  - destruct (workers s !! i) as [w|] eqn:Hw; [|discriminate].
    unfold worker_step in H. destruct (w_pc w) as [|ww|ww ch|ww last|] eqn:Hp.
    + destruct (chan_recv (queue s)); try discriminate; injection H as <-; by left.
    + injection H as <-; by left.
    + destruct (done_closed s ch) eqn:Hc; [injection H as <-; by left|].
      destruct (first_sender ch (stops s)) as [k'|] eqn:Hf; injection H as <-; [|by left].
      destruct (decide (k = k')) as [<-|Hne].
      * right; right; right. exists i, w, ww, ch.
        apply first_sender_some in Hf. rewrite Hk in Hf. injection Hf as ->.
        repeat split; try done. cbn. apply list_lookup_insert_eq. eapply lookup_lt_Some; eauto.
      * left. cbn. by rewrite list_lookup_insert_ne.
    + destruct last; injection H as <-; by left.
    + discriminate.
  - destruct (workers s !! i) as [[[| | |ww last|] o]|]; try discriminate.
    injection H as <-. by left.
  - assert (Hlt : (k < length (stops s))%nat) by (eapply lookup_lt_Some; eauto).
    destruct (decide (k = k')) as [<-|Hne].
    + rewrite Hk in H. destruct x as [ch| | |]; try discriminate.
      * destruct (done_closed s ch) eqn:Hc; [|discriminate]. injection H as <-.
        right; left. cbn. rewrite list_lookup_insert_eq by done.
        split; [done|]. split; [done|]. by intros ch' [= <-].
      * destruct (done_closed s (cur s)) eqn:Hc; injection H as <-.
        -- right; left. cbn. rewrite list_lookup_insert_eq by done.
           split; [done|]. split; [done|]. by intros ch' [=].
        -- right; right; left. cbn. rewrite list_lookup_insert_eq by done. done.
    + left. destruct (stops s !! k') as [[ch| | |]|]; try discriminate.
      * destruct (done_closed s ch); [|discriminate]. injection H as <-. cbn.
        by rewrite list_lookup_insert_ne.
      * destruct (done_closed s (cur s)); injection H as <-; cbn;
          by rewrite list_lookup_insert_ne.
  - destruct (wgroups s !! k'); [|discriminate].
    destruct (Nat.ltb _ 5); [|discriminate]. injection H as <-. by left.
  - destruct (prod s) as [|y rest]; [discriminate|].
    destruct (chan_send (queue s) y); try discriminate; injection H as <-; by left.
  - destruct (main_pc s) as [i| |].
    + destruct (Nat.ltb i 5); injection H as <-; by left.
    + destruct (prod s); [|discriminate].
      destruct (chan_close (queue s)); injection H as <-; by left.
    + injection H as <-. by left.
  - injection H as <-. left. cbn. by apply lookup_app_l_Some.
  - injection H as <-. by left.
  - injection H as <-. by left.
  - injection H as <-. by left.
Qed.

(** Once closed, a done channel stays closed. *)
Lemma step_closed_stays s l s' ch :
  step s l = Some s' -> done_closed s ch = true -> done_closed s' ch = true.
Proof.
  intros H Hc. unfold done_closed in *.
  destruct (dones s !! ch) as [b|] eqn:Hd; [subst b|discriminate].
  destruct (step_dones s l s' H) as [->|[(k & _ & _ & _ & -> & _)|(_ & ->)]].
  - by rewrite Hd.
  - destruct (decide (cur s = ch)) as [<-|Hne].
    + rewrite list_lookup_insert_eq; [done|]. eapply lookup_lt_Some; eauto.
    + by rewrite list_lookup_insert_ne, Hd.
  - by rewrite (lookup_app_l_Some _ _ _ _ Hd).
Qed.

Lemma run_closed_stays s ls s' ch :
  run s ls = Some s' -> done_closed s ch = true -> done_closed s' ch = true.
Proof.
  revert s; induction ls as [|l ls IH]; intros s H Hc; simpl in H.
  - by injection H as <-.
  - destruct (step s l) as [s1|] eqn:Hs; [|discriminate].
    apply (IH s1); [done|]. by apply (step_closed_stays s l s1).
Qed.

End PoolFacts.

(* ================================================================== *)
(** ** More properties of the pool and of the builders *)

Module MoreFacts.
Import Chan Pool PoolFacts.

Lemma in_hand_app ws1 ws2 : in_hand (ws1 ++ ws2) = in_hand ws1 ++ in_hand ws2.
Proof. unfold in_hand. by rewrite map_app, concat_app. Qed.

Lemma in_hand_cons w ws : in_hand (w :: ws) = held (w_pc w) ++ in_hand ws.
Proof. done. Qed.

Lemma in_hand_insert ws i w w' :
  ws !! i = Some w ->
  in_hand (<[i:=w']> ws) ++ held (w_pc w) ≡ₚ in_hand ws ++ held (w_pc w').
Proof.
  intros Hw. assert (Hlt : (i < length ws)%nat) by (eapply lookup_lt_Some; eauto).
  pose proof (take_drop_middle ws i w Hw) as Ews.
  rewrite insert_take_drop by done.
  set (A := take i ws) in *. set (B := drop (S i) ws) in *. clearbody A B.
  rewrite <- Ews, !in_hand_app, !in_hand_cons. solve_Permutation.
Qed.

Lemma requested_snoc l e :
  requested (l ++ [e]) = requested l ++ match e with EvReq _ ww => [ww] | EvStop => [] end.
Proof. induction l as [|[|j x] l IH]; simpl; try done; by rewrite IH. Qed.

Lemma in_hand_spawn s o :
  in_hand (workers (spawn s o)) = in_hand (workers s).
Proof. unfold spawn, set_workers, set_limit. cbn [workers]. rewrite in_hand_app. apply app_nil_r. Qed.

Local Ltac projs :=
  cbn [log workers queue prod dones cur stops wgroups main_pc halted limit
       set_queue set_wpc set_workers set_limit set_prod set_stops set_main_pc emit
       set_dones set_cur set_wgroups set_halted ch_buf w_pc w_origin] in *.

Lemma jobs_step s l s' :
  step s l = Some s' -> halted s' = None -> jobs_at s' ≡ₚ jobs_at s.
Proof.
  intros H Hh'. unfold step in H. destruct (halted s); [discriminate|].
  destruct l as [i|i|k|k| | | | | |].
  - destruct (workers s !! i) as [w|] eqn:Hw; [|discriminate].
    unfold worker_step in H. destruct (w_pc w) as [|ww|ww ch|ww last|] eqn:Hp.
    + destruct (chan_recv (queue s)) as [x q'| |] eqn:Hr; try discriminate; injection H as <-.
      * unfold chan_recv in Hr. destruct (ch_buf (queue s)) as [|y rest] eqn:Hb;
          [destruct (ch_closed _); discriminate|]. injection Hr as -> <-.
        unfold jobs_at. projs. rewrite Hb.
        pose proof (in_hand_insert _ _ _ (mkWorker (WSelect x) (w_origin w)) Hw) as E.
        rewrite Hp in E. cbn in E. rewrite app_nil_r in E.
        apply Permutation_app_head. rewrite E, <- app_assoc. done.
      * unfold jobs_at. projs. apply Permutation_app_head, Permutation_app_tail.
        pose proof (in_hand_insert _ _ _ (mkWorker WExited (w_origin w)) Hw) as E.
        rewrite Hp in E. cbn in E. by rewrite !app_nil_r in E.
    + injection H as <-. unfold jobs_at. projs.
      pose proof (in_hand_insert _ _ _ (mkWorker (WSelectOn ww (cur s)) (w_origin w)) Hw) as E.
      rewrite Hp in E. cbn in E. apply Permutation_app_inv_r in E. by rewrite E.
    + assert (E : forall b, in_hand (<[i:=mkWorker (WReq ww b) (w_origin w)]> (workers s))
                              ≡ₚ in_hand (workers s)).
      { intros b. pose proof (in_hand_insert _ _ _ (mkWorker (WReq ww b) (w_origin w)) Hw) as E.
        rewrite Hp in E. cbn in E. by apply Permutation_app_inv_r in E. }
      destruct (done_closed s ch); [|destruct (first_sender _ _)];
        injection H as <-; unfold jobs_at; projs; by rewrite E.
    + assert (E : forall p, held p = [] ->
                in_hand (<[i:=mkWorker p (w_origin w)]> (workers s)) ++ [ww]
                ≡ₚ in_hand (workers s)).
      { intros p Hp'. pose proof (in_hand_insert _ _ _ (mkWorker p (w_origin w)) Hw) as E.
        rewrite Hp in E. cbn in E. rewrite Hp', app_nil_r in E. done. }
      destruct last; injection H as <-; unfold jobs_at; projs; rewrite requested_snoc;
        match goal with |- context [mkWorker ?p (w_origin w)] => rewrite <- (E p eq_refl) end;
        solve_Permutation.
    + discriminate.
  - destruct (workers s !! i) as [[[| | |ww last|] o]|]; try discriminate.
    injection H as <-. discriminate Hh'.
  - destruct (stops s !! k) as [[ch| | |]|]; try discriminate.
    + destruct (done_closed s ch); [|discriminate]. injection H as <-. done.
    + destruct (done_closed s (cur s)); injection H as <-; done.
  - destruct (wgroups s !! k) as [i|]; [|discriminate].
    destruct (Nat.ltb i 5); [|discriminate]. injection H as <-.
    unfold jobs_at. projs. by rewrite in_hand_spawn.
  - destruct (prod s) as [|x rest] eqn:Hpr; [discriminate|].
    destruct (chan_send (queue s) x) as [q'| |] eqn:Hs; try discriminate; injection H as <-;
      [|discriminate Hh'].
    unfold chan_send in Hs. destruct (ch_closed _); [discriminate|].
    destruct (Nat.ltb _ _); [|discriminate]. injection Hs as <-.
    unfold jobs_at. projs. rewrite Hpr. rewrite <- !app_assoc. done.
  - destruct (main_pc s) as [i| |].
    + destruct (Nat.ltb i 5); injection H as <-; unfold jobs_at; projs;
        [by rewrite in_hand_spawn|done].
    + destruct (prod s); [|discriminate].
      destruct (chan_close (queue s)) as [q'|] eqn:Hc; injection H as <-; [|discriminate Hh'].
      unfold chan_close in Hc. destruct (ch_closed _); [discriminate|]. injection Hc as <-.
      done.
    + injection H as <-. discriminate Hh'.
  - injection H as <-. unfold jobs_at. projs. by rewrite requested_snoc, app_nil_r.
  - injection H as <-. done.
  - injection H as <-. unfold jobs_at. projs. by rewrite in_hand_spawn.
  - injection H as <-. discriminate Hh'.
Qed.

Lemma step_not_halted s l s' : step s l = Some s' -> halted s = None.
Proof. unfold step. by destruct (halted s). Qed.

Lemma jobs_run s ls s' jobs :
  (halted s = None -> jobs_at s ≡ₚ jobs) -> run s ls = Some s' ->
  halted s' = None -> jobs_at s' ≡ₚ jobs.
Proof.
  revert s; induction ls as [|l ls IH]; intros s Hs Hr; cbn in Hr.
  - by injection Hr as <-.
  - destruct (step s l) as [s1|] eqn:E; [|discriminate Hr].
    apply (IH s1); [|done]. intros Hh1.
    rewrite (jobs_step s l s1 E Hh1). apply Hs. by eapply step_not_halted.
Qed.

Lemma start_or_not (l : label) : l = LCallStart \/ l <> LCallStart.
Proof. destruct l; (by left) || (right; discriminate). Qed.

(** [c.done] changes only in the start handler, which points it at a new channel. *)
Lemma step_cur s l s' :
  step s l = Some s' ->
  (l <> LCallStart -> cur s' = cur s)
  /\ (l = LCallStart -> cur s' = length (dones s) /\ dones s' = dones s ++ [false]).
Proof.
  intros H. unfold step in H. destruct (halted s); [discriminate|].
  destruct l as [i|i|k|k| | | | | |].
  - destruct (workers s !! i) as [w|] eqn:Hw; [|discriminate].
    destruct (worker_step_shape s i w s' Hw H) as (p & _ & _ & _ & _ & _ & _ & Ec & _).
    split; [done|discriminate].
  - destruct (workers s !! i) as [[[| | |ww last|] o]|]; try discriminate.
    injection H as <-. split; [done|discriminate].
  - destruct (stops s !! k) as [[ch| | |]|]; try discriminate.
    + destruct (done_closed s ch); [|discriminate]. injection H as <-. split; [done|discriminate].
    + destruct (done_closed s (cur s)); injection H as <-; split; (done || discriminate).
  - destruct (wgroups s !! k); [|discriminate].
    destruct (Nat.ltb _ 5); [|discriminate]. injection H as <-. split; [done|discriminate].
  - destruct (prod s) as [|x rest]; [discriminate|].
    destruct (chan_send (queue s) x); try discriminate; injection H as <-;
      split; (done || discriminate).
  - destruct (main_pc s) as [i| |].
    + destruct (Nat.ltb i 5); injection H as <-; split; (done || discriminate).
    + destruct (prod s); [|discriminate].
      destruct (chan_close (queue s)); injection H as <-; split; (done || discriminate).
    + injection H as <-. split; [done|discriminate].
  - injection H as <-. split; [done|discriminate].
  - injection H as <-. split; [by intros []|done].
  - injection H as <-. split; [done|discriminate].
  - injection H as <-. split; [done|discriminate].
Qed.

Lemma step_dones_length s l s' :
  step s l = Some s' -> (length (dones s) <= length (dones s'))%nat.
Proof.
  intros H. destruct (step_dones s l s' H) as [->|[(k & _ & _ & _ & -> & _)|(_ & ->)]].
  - lia.
  - rewrite length_insert. lia.
  - rewrite length_app. lia.
Qed.

Lemma cur_lt_run cap jobs ls s :
  run (init cap jobs) ls = Some s -> (cur s < length (dones s))%nat.
Proof.
  assert (Hi : (cur (init cap jobs) < length (dones (init cap jobs)))%nat) by (cbn; lia).
  revert Hi. generalize (init cap jobs) as s0. revert s.
  induction ls as [|l ls IH]; intros s s0 Hi Hr; cbn in Hr.
  - by injection Hr as <-.
  - destruct (step s0 l) as [s1|] eqn:E; [|discriminate Hr].
    apply (IH s s1); [|done].
    destruct (step_cur s0 l s1 E) as [Hc Hs]. pose proof (step_dones_length s0 l s1 E).
    destruct (start_or_not l) as [->|Hne].
    + destruct (Hs eq_refl) as [-> ->]. rewrite length_app. cbn. lia.
    + rewrite (Hc Hne). lia.
Qed.

(** What a step does to the worker list: nothing, a new worker at its
    [range], or one worker's own step. *)
Lemma step_workers s l s' :
  step s l = Some s' ->
  workers s' = workers s
  \/ (exists o, workers s' = workers s ++ [mkWorker WRange o])
  \/ (exists i w, l = LWorker i /\ workers s !! i = Some w /\ worker_step s i w = Some s').
Proof.
  intros H. unfold step in H. destruct (halted s); [discriminate H|].
  destruct l as [i|i|k|k| | | | | |].
  - destruct (workers s !! i) as [w|] eqn:Hw; [|discriminate H].
    right; right. by exists i, w.
  - destruct (workers s !! i) as [[[| | |ww last|] o]|]; try discriminate H.
    injection H as <-. by left.
  - destruct (stops s !! k) as [[ch| | |]|]; try discriminate H.
    + destruct (done_closed s ch); [|discriminate H]. injection H as <-. by left.
    + destruct (done_closed s (cur s)); injection H as <-; by left.
  - destruct (wgroups s !! k); [|discriminate H].
    destruct (Nat.ltb _ 5); [|discriminate H]. injection H as <-. right; left. by eexists.
  - destruct (prod s) as [|x rest]; [discriminate H|].
    destruct (chan_send (queue s) x); try discriminate H; injection H as <-; by left.
  - destruct (main_pc s) as [i| |].
    + destruct (Nat.ltb i 5); injection H as <-; [right; left; by eexists|by left].
    + destruct (prod s); [|discriminate H].
      destruct (chan_close (queue s)); injection H as <-; by left.
    + injection H as <-. by left.
  - injection H as <-. by left.
  - injection H as <-. by left.
  - injection H as <-. right; left. by eexists.
  - injection H as <-. by left.
Qed.

(** A worker gets into a [select] with [c.done] evaluated only from
    [WSelect], and with the current done channel. *)
Lemma worker_step_enters s i w s' ww ch :
  workers s !! i = Some w -> worker_step s i w = Some s' ->
  workers s' !! i = Some (mkWorker (WSelectOn ww ch) (w_origin w)) ->
  w_pc w = WSelect ww /\ ch = cur s.
Proof.
  intros Hw H Hw'. assert (Hlt : (i < length (workers s))%nat) by (eapply lookup_lt_Some; eauto).
  unfold worker_step in H. destruct (w_pc w) as [|x|x c|x last|] eqn:Hp.
  - destruct (chan_recv (queue s)); try discriminate H; injection H as <-;
      cbn [workers set_wpc set_workers set_queue set_limit] in Hw';
      rewrite list_lookup_insert_eq in Hw' by done; discriminate Hw'.
  - injection H as <-. cbn [workers set_wpc set_workers] in Hw'.
    rewrite list_lookup_insert_eq in Hw' by done. by injection Hw' as -> ->.
  - destruct (done_closed s c); [|destruct (first_sender _ _)]; injection H as <-;
      cbn [workers set_wpc set_workers set_stops] in Hw';
      rewrite list_lookup_insert_eq in Hw' by done; discriminate Hw'.
  - destruct last; injection H as <-; cbn [workers set_wpc set_workers set_limit emit] in Hw';
      rewrite list_lookup_insert_eq in Hw' by done; discriminate Hw'.
  - discriminate H.
Qed.

(** A worker in a [select] on [ch] after a step was there before, or has
    just evaluated [c.done] to [ch]. *)
Lemma step_selects s l s' i w ww ch :
  step s l = Some s' -> workers s' !! i = Some w -> w_pc w = WSelectOn ww ch ->
  (exists w0, workers s !! i = Some w0 /\ w_pc w0 = WSelectOn ww ch) \/ ch = cur s.
Proof.
  intros H Hw Hp.
  destruct (step_workers s l s' H) as [Ews|[(o & Ews)|(j & w1 & -> & Hw1 & Hj)]].
  - left. exists w. by rewrite <- Ews.
  - rewrite Ews in Hw. apply lookup_app_Some in Hw as [Hw|[_ Hw]]; [left; by exists w|].
    apply list_lookup_singleton_Some in Hw as [_ <-]. discriminate Hp.
  - destruct (worker_step_shape s j w1 s' Hw1 Hj) as (p & Ews & _).
    destruct (decide (i = j)) as [->|Hne].
    + assert (Hj' := Hw). rewrite Ews, list_lookup_insert_eq in Hj'
        by (eapply lookup_lt_Some; eauto).
      injection Hj' as <-. cbn in Hp. subst p.
      right. exact (proj2 (worker_step_enters s j w1 s' ww ch Hw1 Hj
                             ltac:(rewrite Ews; apply list_lookup_insert_eq; eapply lookup_lt_Some; eauto))).
    + left. exists w. split; [|done]. rewrite Ews in Hw. by rewrite list_lookup_insert_ne in Hw.
Qed.

Lemma stuck_stop_step k ch t l t' :
  stuck_stop k ch t -> step t l = Some t' -> stuck_stop k ch t'.
Proof.
  intros (Hk & Hne & Hlt & Hc & Hsel) H.
  destruct (step_cur t l t' H) as [Ec Es]. pose proof (step_dones_length t l t' H) as Hl.
  assert (Hc' : done_closed t' ch = false).
  { unfold done_closed in *.
    destruct (step_dones t l t' H) as [->|[(k' & _ & _ & _ & -> & _)|(_ & ->)]].
    - done.
    - by rewrite list_lookup_insert_ne by congruence.
    - destruct (dones t !! ch) as [b|] eqn:Hd; [|by apply lookup_ge_None in Hd; lia].
      by rewrite (lookup_app_l_Some _ _ _ _ Hd). }
  assert (Hne' : ch <> cur t').
  { destruct (start_or_not l) as [->|Hl'].
    - destruct (Es eq_refl) as [-> _]. lia.
    - by rewrite (Ec Hl'). }
  assert (Hsel' : forall i w ww, workers t' !! i = Some w -> w_pc w <> WSelectOn ww ch).
  { intros i w ww Hw Hp.
    destruct (step_selects t l t' i w ww ch H Hw Hp) as [(w0 & Hw0 & Hp0)|Hcur].
    - exact (Hsel i w0 ww Hw0 Hp0).
    - exact (Hne Hcur). }
  destruct (step_stops t l t' k _ H Hk)
    as [Hs|[(_ & _ & Hx)|[(_ & Hx & _)|(i & w & ww & ch' & _ & Hw & Hp & Hx & _)]]].
  - repeat split; try done. lia.
  - by rewrite (Hx ch eq_refl) in Hc.
  - discriminate Hx.
  - injection Hx as <-. exfalso. exact (Hsel i w ww Hw Hp).
Qed.

(** Only the stop route adds a stop handler. *)
Lemma step_stops_length s l s' :
  step s l = Some s' -> l <> LCallStop -> length (stops s') = length (stops s).
Proof.
  intros H Hl. unfold step in H. destruct (halted s); [discriminate H|].
  destruct l as [i|i|k|k| | | | | |].
  - destruct (workers s !! i) as [w|] eqn:Hw; [|discriminate H].
    unfold worker_step in H. destruct (w_pc w) as [|ww|ww ch|ww last|].
    + destruct (chan_recv (queue s)); try discriminate H; injection H as <-; done.
    + injection H as <-. done.
    + destruct (done_closed s ch); [|destruct (first_sender _ _)]; injection H as <-;
        cbn; rewrite ?length_insert; done.
    + destruct last; injection H as <-; done.
    + discriminate H.
  - destruct (workers s !! i) as [[[| | |ww last|] o]|]; try discriminate H.
    injection H as <-. done.
  - destruct (stops s !! k) as [[ch| | |]|]; try discriminate H.
    + destruct (done_closed s ch); [|discriminate H]. injection H as <-. cbn.
      by rewrite length_insert.
    + destruct (done_closed s (cur s)); injection H as <-; cbn; by rewrite length_insert.
  - destruct (wgroups s !! k); [|discriminate H].
    destruct (Nat.ltb _ 5); [|discriminate H]. injection H as <-. done.
  - destruct (prod s); [discriminate H|].
    destruct (chan_send _ _); try discriminate H; injection H as <-; done.
  - destruct (main_pc s) as [m| |].
    + destruct (Nat.ltb m 5); injection H as <-; done.
    + destruct (prod s); [|discriminate H].
      destruct (chan_close _); injection H as <-; done.
    + injection H as <-. done.
  - by destruct Hl.
  - injection H as <-. done.
  - injection H as <-. done.
  - injection H as <-. done.
Qed.

Lemma quiet_step c t l t' :
  quiet c t -> l <> LCallStop -> l <> LCallStart -> step t l = Some t' -> quiet c t'.
Proof.
  intros (Hc & Hd & Hs) Hl1 Hl2 H. split; [|split].
  - by rewrite (proj1 (step_cur t l t' H) Hl2).
  - destruct (step_dones t l t' H) as [Ed|[(k & _ & Hk & _)|(Hl & _)]].
    + unfold done_closed in *. by rewrite Ed.
    + by destruct (Hs k SClose Hk).
    + by destruct Hl2.
  - intros k x Hx. destruct (stops t !! k) as [x0|] eqn:Hx0.
    + destruct (step_stops t l t' k x0 H Hx0)
        as [Hs'|[(_ & Hs' & _)|[(_ & -> & _)|(i & w & ww & ch & _ & _ & _ & -> & _)]]].
      * rewrite Hx in Hs'. injection Hs' as ->. exact (Hs k x0 Hx0).
      * rewrite Hx in Hs'. injection Hs' as ->. by right.
      * by destruct (Hs k SClose Hx0).
      * by destruct (Hs k (SSend ch) Hx0).
    + apply lookup_lt_Some in Hx. rewrite (step_stops_length t l t' H Hl1) in Hx.
      apply lookup_ge_None in Hx0. lia.
Qed.

Lemma reqs_by_app i l1 l2 : reqs_by i (l1 ++ l2) = (reqs_by i l1 + reqs_by i l2)%nat.
Proof. induction l1 as [|[|j x] l1 IH]; cbn; lia. Qed.

Lemma budget_at_spawn c ws o i : budget_at c (ws ++ [mkWorker WRange o]) i = budget_at c ws i.
Proof.
  unfold budget_at. destruct (ws !! i) as [w|] eqn:Hw.
  - by rewrite (lookup_app_l_Some _ _ _ _ Hw).
  - apply lookup_ge_None in Hw. rewrite lookup_app_r by done.
    by destruct (i - length ws)%nat.
Qed.

Lemma budget_at_insert c ws j w' i :
  (j < length ws)%nat ->
  budget_at c (<[j:=w']> ws) i = if Nat.eqb i j then budget c (w_pc w') else budget_at c ws i.
Proof.
  intros Hj. unfold budget_at. destruct (Nat.eqb i j) eqn:E.
  - apply Nat.eqb_eq in E as ->. by rewrite list_lookup_insert_eq.
  - apply Nat.eqb_neq in E. by rewrite list_lookup_insert_ne by congruence.
Qed.

Lemma potential_step s l s' i :
  done_closed s (cur s) = true -> l <> LCallStart -> step s l = Some s' ->
  (potential s' i <= potential s i)%nat.
Proof.
  intros Hc Hl H. unfold step in H. destruct (halted s) eqn:Hh; [discriminate H|].
  unfold potential. rewrite Hh.
  destruct l as [j|j|k|k| | | | | |].
  - destruct (workers s !! j) as [w|] eqn:Hw; [|discriminate H].
    assert (Hj : (j < length (workers s))%nat) by (eapply lookup_lt_Some; eauto).
    assert (Hb : budget_at (cur s) (workers s) i
                 = if Nat.eqb i j then budget (cur s) (w_pc w) else budget_at (cur s) (workers s) i).
    { unfold budget_at. destruct (Nat.eqb i j) eqn:E; [|done].
      apply Nat.eqb_eq in E as ->. by rewrite Hw. }
    unfold worker_step in H. destruct (w_pc w) as [|ww|ww ch|ww last|] eqn:Hp.
    + destruct (chan_recv (queue s)); try discriminate H; injection H as <-;
        cbn [log workers halted cur set_queue set_wpc set_workers set_limit];
        rewrite Hh, budget_at_insert by done; rewrite Hb;
        destruct (Nat.eqb i j); cbn; lia.
    + injection H as <-.
      cbn [log workers halted cur set_wpc set_workers]. rewrite Hh, budget_at_insert by done.
      rewrite Hb. destruct (Nat.eqb i j); cbn; rewrite ?Nat.eqb_refl; lia.
    + destruct (Nat.eqb ch (cur s)) eqn:Ech.
      * apply Nat.eqb_eq in Ech. subst ch. rewrite Hc in H. injection H as <-.
        cbn [log workers halted cur set_wpc set_workers]. rewrite Hh, budget_at_insert by done.
        rewrite Hb. destruct (Nat.eqb i j); cbn; rewrite ?Nat.eqb_refl; lia.
      * destruct (done_closed s ch); [|destruct (first_sender _ _)]; injection H as <-;
          cbn [log workers halted cur set_wpc set_workers set_stops];
          rewrite Hh, budget_at_insert by done; rewrite Hb;
          destruct (Nat.eqb i j); cbn; rewrite ?Ech; lia.
    + destruct last; injection H as <-;
        cbn [log workers halted cur set_wpc set_workers set_limit emit];
        rewrite Hh, budget_at_insert, reqs_by_app by done; rewrite Hb; cbn;
        destruct (Nat.eqb i j); cbn; lia.
    + discriminate H.
  - destruct (workers s !! j) as [[[| | |ww last|] o]|] eqn:Hw; try discriminate H.
    injection H as <-. cbn [log halted set_halted emit]. rewrite reqs_by_app. cbn.
    unfold budget_at.
    destruct (Nat.eqb i j) eqn:E; [|lia].
    apply Nat.eqb_eq in E as ->. rewrite Hw. cbn. destruct last; lia.
  - destruct (stops s !! k) as [[ch| | |]|]; try discriminate H.
    + destruct (done_closed s ch); [|discriminate H]. injection H as <-. cbn. rewrite Hh. lia.
    + destruct (done_closed s (cur s)); injection H as <-; cbn; rewrite Hh; lia.
  - destruct (wgroups s !! k); [|discriminate H].
    destruct (Nat.ltb _ 5); [|discriminate H]. injection H as <-.
    cbn [log halted workers cur set_wgroups spawn set_workers set_limit].
    rewrite Hh, budget_at_spawn. lia.
  - destruct (prod s) as [|x rest]; [discriminate H|].
    destruct (chan_send (queue s) x); try discriminate H; injection H as <-; cbn; rewrite ?Hh; lia.
  - destruct (main_pc s) as [m| |].
    + destruct (Nat.ltb m 5); injection H as <-;
        cbn [log halted workers cur set_main_pc spawn set_workers set_limit];
        rewrite Hh, ?budget_at_spawn; lia.
    + destruct (prod s); [|discriminate H].
      destruct (chan_close (queue s)); injection H as <-; cbn; rewrite ?Hh; lia.
    + injection H as <-. cbn [log halted set_halted]. lia.
  - injection H as <-. cbn [log halted workers cur set_stops emit]. rewrite Hh, reqs_by_app. cbn. lia.
  - by destruct Hl.
  - injection H as <-. cbn [log halted workers cur spawn set_workers set_limit].
    rewrite Hh, budget_at_spawn. lia.
  - injection H as <-. cbn [log halted set_halted]. lia.
Qed.

Lemma potential_run s ls s' i :
  done_closed s (cur s) = true -> Forall (fun l => l <> LCallStart) ls ->
  run s ls = Some s' -> (potential s' i <= potential s i)%nat.
Proof.
  revert s; induction ls as [|l ls IH]; intros s Hc Hls Hr; cbn in Hr.
  - injection Hr as <-. lia.
  - destruct (step s l) as [s1|] eqn:E; [|discriminate Hr].
    apply Forall_cons in Hls as [Hl Hls].
    pose proof (potential_step s l s1 i Hc Hl E).
    assert (Hc1 : done_closed s1 (cur s1) = true).
    { rewrite (proj1 (step_cur s l s1 E) Hl). by apply (step_closed_stays s l). }
    specialize (IH s1 Hc1 Hls Hr). lia.
Qed.

Lemma queue_inv_step s l s' : queue_inv s -> step s l = Some s' -> queue_inv s'.
Proof.
  intros (Hh & Hc & Hp) H. unfold step in H. destruct (halted s) eqn:Hh0; [discriminate|].
  destruct l as [i|i|k|k| | | | | |].
  - destruct (workers s !! i) as [w|] eqn:Hw; [|discriminate].
    destruct (worker_step_shape s i w s' Hw H) as (p & _ & _ & Em & _ & Eh & _ & _ & Ep).
    assert (Eq : ch_closed (queue s') = ch_closed (queue s)).
    { unfold worker_step in H. destruct (w_pc w) as [|ww|ww ch|ww last|].
      - destruct (chan_recv (queue s)) as [x q'| |] eqn:Hr; try discriminate; injection H as <-;
          [|done]. unfold chan_recv in Hr. destruct (ch_buf (queue s)); [by destruct (ch_closed _)|].
        by injection Hr as _ <-.
      - by injection H as <-.
      - destruct (done_closed s ch); [|destruct (first_sender _ _)]; by injection H as <-.
      - destruct last; by injection H as <-.
      - discriminate. }
    unfold queue_inv. rewrite Eq, Em, Eh, Ep, Hh0. by split; [left|].
  - destruct (workers s !! i) as [[[| | |ww last|] o]|]; try discriminate.
    injection H as <-. split; [right; by left|done].
  - destruct (stops s !! k) as [[ch| | |]|]; try discriminate.
    + destruct (done_closed s ch); [|discriminate]. injection H as <-. by split; [left|].
    + destruct (done_closed s (cur s)); injection H as <-; by split; [left|].
  - destruct (wgroups s !! k); [|discriminate].
    destruct (Nat.ltb _ 5); [|discriminate]. injection H as <-. by split; [left|].
  - destruct (prod s) as [|x rest] eqn:Hpr; [discriminate|].
    destruct (chan_send (queue s) x) as [q'| |] eqn:Hs; try discriminate; injection H as <-.
    + unfold chan_send in Hs. destruct (ch_closed (queue s)) eqn:Hcl; [discriminate|].
      destruct (Nat.ltb _ _); [|discriminate]. injection Hs as <-.
      assert (Hm : main_pc s <> MClosed) by (intros Hm; apply Hc in Hm; congruence).
      unfold queue_inv. cbn. rewrite Hh0. split; [by left|].
      split; [split; [discriminate|done]|done].
    + unfold chan_send in Hs. destruct (ch_closed (queue s)) eqn:Hcl; [|by destruct (Nat.ltb _ _)].
      pose proof (proj1 Hc eq_refl) as Hm. pose proof (Hp Hm). congruence.
  - destruct (main_pc s) as [m| |] eqn:Hm.
    + assert (Hcl : ch_closed (queue s) = false)
        by (destruct (ch_closed (queue s)) eqn:E; [pose proof (proj1 Hc eq_refl); congruence|done]).
      destruct (Nat.ltb m 5); injection H as <-; unfold queue_inv; cbn; rewrite Hh0;
        (split; [by left|]); rewrite Hcl; (split; [split; discriminate|discriminate]).
    + destruct (prod s) eqn:Hpr; [|discriminate].
      assert (Hcl : ch_closed (queue s) = false)
        by (destruct (ch_closed (queue s)) eqn:E; [pose proof (proj1 Hc eq_refl); congruence|done]).
      unfold chan_close in H. rewrite Hcl in H. injection H as <-.
      unfold queue_inv. cbn. rewrite Hh0. split; [by left|]. done.
    + injection H as <-. unfold queue_inv. cbn [halted set_halted queue main_pc prod].
      rewrite Hm. split; [right; right; by split|]. by split.
  - injection H as <-. by split; [left|].
  - injection H as <-. by split; [left|].
  - injection H as <-. by split; [left|].
  - injection H as <-. unfold queue_inv. cbn [halted set_halted queue main_pc prod].
    split; [right; by left|]. by split.
Qed.

Lemma main_only_step s l s' :
  l <> LCallStart -> l <> LCallAdd -> main_only s -> step s l = Some s' -> main_only s'.
Proof.
  intros Hl1 Hl2 [Hg Hw] H. unfold step in H. destruct (halted s); [discriminate|].
  destruct l as [i|i|k|k| | | | | |].
  - destruct (workers s !! i) as [w|] eqn:Hwi; [|discriminate].
    destruct (worker_step_shape s i w s' Hwi H) as (p & Ews & _ & _ & Eg & _).
    split; [by rewrite Eg|]. rewrite Ews. apply Forall_insert; [done|].
    cbn. exact (Forall_lookup_1 _ _ _ _ Hw Hwi).
  - destruct (workers s !! i) as [[[| | |ww last|] o]|]; try discriminate.
    injection H as <-. by split.
  - destruct (stops s !! k) as [[ch| | |]|]; try discriminate.
    + destruct (done_closed s ch); [|discriminate]. injection H as <-. by split.
    + destruct (done_closed s (cur s)); injection H as <-; by split.
  - rewrite Hg in H. discriminate H.
  - destruct (prod s) as [|x rest]; [discriminate|].
    destruct (chan_send (queue s) x); try discriminate; injection H as <-; by split.
  - destruct (main_pc s) as [m| |].
    + destruct (Nat.ltb m 5); injection H as <-; [|by split].
      split; [done|]. cbn. apply Forall_app; split; [done|]. by constructor.
    + destruct (prod s); [|discriminate].
      destruct (chan_close (queue s)); injection H as <-; by split.
    + injection H as <-. by split.
  - injection H as <-. by split.
  - by destruct Hl1.
  - by destruct Hl2.
  - injection H as <-. by split.
Qed.

Lemma count_origin_all ws o :
  Forall (fun w => w_origin w = o) ws -> count_origin o ws = length ws.
Proof.
  induction 1 as [|w ws Hw _ IH]; [done|].
  unfold count_origin in *. cbn. rewrite Hw, origin_eqb_refl. cbn. by rewrite IH.
Qed.

Lemma chans_inv_step s l s' : chans_inv s -> step s l = Some s' -> chans_inv s'.
Proof.
  intros [Hc Hk] H. pose proof (step_dones_length s l s' H) as Hl.
  destruct (step_cur s l s' H) as [Ec Es]. split.
  - destruct (start_or_not l) as [->|Hne].
    + destruct (Es eq_refl) as [-> ->]. rewrite length_app. cbn. lia.
    + rewrite (Ec Hne). lia.
  - intros k ch Hk'.
    destruct (stops s !! k) as [x|] eqn:Hx.
    + destruct (step_stops s l s' k x H Hx)
        as [Hs|[(_ & Hs & _)|[(_ & _ & Hs & _)|(i & w & ww & ch0 & _ & _ & _ & _ & _ & Hs)]]];
        rewrite Hs in Hk'; try discriminate Hk'.
      injection Hk' as ->. specialize (Hk k ch Hx). lia.
    + (* a stop handler invoked by this step *)
      unfold step in H. destruct (halted s); [discriminate|].
      destruct l as [i|i|k'|k'| | | | | |].
      * destruct (workers s !! i) as [w|] eqn:Hw; [|discriminate].
        destruct (worker_step_shape s i w s' Hw H) as (p & _).
        unfold worker_step in H. destruct (w_pc w) as [|ww|ww ch0|ww last|].
        -- destruct (chan_recv (queue s)); try discriminate; injection H as <-;
             cbn in Hk'; by rewrite Hx in Hk'.
        -- injection H as <-. cbn in Hk'. by rewrite Hx in Hk'.
        -- destruct (done_closed s ch0); [|destruct (first_sender _ _)];
             injection H as <-; cbn in Hk';
             rewrite ?list_lookup_insert_ne in Hk' by (intros ->; apply lookup_lt_Some in Hk'; rewrite length_insert in Hk'; apply lookup_ge_None in Hx; lia);
             by rewrite Hx in Hk'.
        -- destruct last; injection H as <-; cbn in Hk'; by rewrite Hx in Hk'.
        -- discriminate.
      * destruct (workers s !! i) as [[[| | |ww last|] o]|]; try discriminate.
        injection H as <-. cbn in Hk'. by rewrite Hx in Hk'.
      * destruct (stops s !! k') as [[ch'| | |]|] eqn:Hk0; try discriminate.
        -- destruct (done_closed s ch'); [|discriminate]. injection H as <-. cbn in Hk'.
           apply lookup_lt_Some in Hk'. rewrite length_insert in Hk'.
           apply lookup_ge_None in Hx. lia.
        -- destruct (done_closed s (cur s)); injection H as <-; cbn in Hk';
             apply lookup_lt_Some in Hk'; rewrite length_insert in Hk';
             apply lookup_ge_None in Hx; lia.
      * destruct (wgroups s !! k'); [|discriminate].
        destruct (Nat.ltb _ 5); [|discriminate]. injection H as <-. cbn in Hk'.
        by rewrite Hx in Hk'.
      * destruct (prod s) as [|y rest]; [discriminate|].
        destruct (chan_send (queue s) y); try discriminate; injection H as <-;
          cbn in Hk'; by rewrite Hx in Hk'.
      * destruct (main_pc s) as [m| |].
        -- destruct (Nat.ltb m 5); injection H as <-; cbn in Hk'; by rewrite Hx in Hk'.
        -- destruct (prod s); [|discriminate].
           destruct (chan_close (queue s)); injection H as <-; cbn in Hk'; by rewrite Hx in Hk'.
        -- injection H as <-. cbn in Hk'. by rewrite Hx in Hk'.
      * injection H as <-. cbn in Hk'. apply lookup_ge_None in Hx.
        rewrite lookup_app_r in Hk' by done.
        destruct (k - length (stops s))%nat; cbn in Hk'; [|discriminate Hk'].
        injection Hk' as <-. cbn. lia.
      * injection H as <-. cbn in Hk'. by rewrite Hx in Hk'.
      * injection H as <-. cbn in Hk'. by rewrite Hx in Hk'.
      * injection H as <-. cbn in Hk'. by rewrite Hx in Hk'.
Qed.

Lemma chans_inv_run cap jobs ls s : run (init cap jobs) ls = Some s -> chans_inv s.
Proof.
  assert (H0 : chans_inv (init cap jobs)).
  { split; [cbn; lia|]. intros k ch Hk. cbn in Hk. discriminate Hk. }
  revert H0. generalize (init cap jobs) as s0. revert s.
  induction ls as [|l ls IH]; intros s s0 H0 Hr; cbn in Hr.
  - by injection Hr as <-.
  - destruct (step s0 l) as [s1|] eqn:E; [|discriminate Hr].
    exact (IH s s1 (chans_inv_step s0 l s1 H0 E) Hr).
Qed.

End MoreFacts.

Module OptionsMoreFacts.
Import Options.

Lemma picked_snoc {O V : Type} (sel : O -> option V) os o :
  picked sel (os ++ [o]) = picked sel os ++ match sel o with Some v => [v] | None => [] end.
Proof. induction os as [|o' os IH]; cbn; [by destruct (sel o)|]. destruct (sel o'); by rewrite IH. Qed.

Lemma last_snoc_opt {V : Type} (l : list V) (x : option V) d :
  List.last (l ++ match x with Some v => [v] | None => [] end) d
  = match x with Some v => v | None => List.last l d end.
Proof. destruct x; [apply List.last_last|by rewrite app_nil_r]. Qed.

End OptionsMoreFacts.

(* ================================================================== *)
(** ** The claims *)

Module Claims.
Import Chan ChanFacts Options OptionsFacts.

(** C6: on any schedule of [Enqueue]s, [Dequeue]s and one [Close] that the
    channel lets happen, every enqueued job is delivered by exactly one
    [Dequeue], in enqueue order, and is never discarded: what was
    delivered followed by what is still buffered is the enqueued list; the
    first [Dequeue] that reports [ok = false] comes after every job was
    delivered; [ok = false] happens exactly on a closed and empty channel;
    and [close] keeps the buffer. *)
Theorem C6_no_lost_jobs (cap : nat) (ops : list qop) (c : chan) (outs : list (option Z)) :
  run_q (make_chan cap) ops = Some (c, outs) ->
  delivered outs ++ ch_buf c = enqueued ops
  /\ (forall pre post, outs = pre ++ None :: post -> delivered pre = enqueued ops)
  /\ (forall c0, chan_recv c0 = RecvClosed <-> ch_closed c0 = true /\ ch_buf c0 = [])
  /\ (forall c0 c1, chan_close c0 = Some c1 -> ch_buf c1 = ch_buf c0).
Proof.
  intros H. split; [|split; [|split]].
  - by rewrite (run_q_flow _ _ _ _ H).
  - intros pre post Ho. by rewrite (run_q_first_closed _ _ _ _ pre post H Ho).
  - apply chan_recv_closed_iff.
  - apply chan_close_keeps.
Qed.

Lemma C6_no_lost_jobs_witness :
  run_q (make_chan 2) [QEnq 1; QEnq 2; QDeq; QEnq 3; QClose; QDeq; QDeq; QDeq]
    = Some (mkChan [] 2 true, [Some 1; Some 2; Some 3; None])
  /\ delivered [Some 1; Some 2; Some 3; None] ++ [] = [1; 2; 3].
Proof.
  assert (H : run_q (make_chan 2) [QEnq 1; QEnq 2; QDeq; QEnq 3; QClose; QDeq; QDeq; QDeq]
              = Some (mkChan [] 2 true, [Some 1; Some 2; Some 3; None])) by reflexivity.
  split; [exact H|].
  exact (proj1 (C6_no_lost_jobs 2 _ _ _ H)).
Defined.

(** C8: the queue [work] never buffers more than its capacity 10; on a
    full open channel a send blocks (it is neither accepted nor dropped,
    the channel is unchanged); with no worker receiving, the first 10
    sends succeed and the 11th blocks; one receive unblocks it; and in the
    program the producer cannot step while the queue is full. *)
Theorem C8_backpressure :
  (forall ops c outs, run_q work ops = Some (c, outs) -> (length (ch_buf c) <= 10)%nat)
  /\ (forall c x, ch_closed c = false -> length (ch_buf c) = ch_cap c ->
        chan_send c x = SendBlock)
  /\ (forall xs : list Z, length xs = 11%nat ->
        run_q work (map QEnq (take 10 xs)) = Some (mkChan (take 10 xs) 10 false, [])
        /\ run_q work (map QEnq xs) = None)
  /\ (forall c x y c', ch_closed c = false -> (length (ch_buf c) <= ch_cap c)%nat ->
        chan_recv c = RecvVal y c' -> exists c'', chan_send c' x = SendOk c'')
  /\ (forall s : Pool.state, ch_closed (Pool.queue s) = false ->
        length (ch_buf (Pool.queue s)) = ch_cap (Pool.queue s) ->
        Pool.step s Pool.LProducer = None).
Proof.
  split; [|split; [|split; [|split]]].
  - intros ops c outs H. destruct (run_q_bounded work ops c outs) as [H1 H2]; [simpl; lia|done|].
    simpl in H2. lia.
  - intros c x Hc Hl. unfold chan_send. rewrite Hc, Hl, Nat.ltb_irrefl. done.
  - intros xs Hl. split.
    + rewrite run_q_enqs_ok; [done|done|]. simpl. rewrite length_take. lia.
    + rewrite <- (take_drop 10 xs), map_app.
      assert (Ht : length (take 10 xs) = 10%nat) by (rewrite length_take; lia).
      assert (Hd : length (drop 10 xs) = 1%nat) by (rewrite length_drop; lia).
      destruct (drop 10 xs) as [|z [|]]; simpl in Hd; try lia.
      revert Ht. generalize (take 10 xs). intros l Ht.
      assert (Hrun : forall c ys zs, ch_closed c = false ->
                (length (ch_buf c) + length ys = ch_cap c)%nat ->
                run_q c (map QEnq ys ++ zs) = run_q (mkChan (ch_buf c ++ ys) (ch_cap c) false) zs).
      { intros c ys; revert c; induction ys as [|y ys IH]; intros c zs Hc Hlen; simpl.
        - rewrite app_nil_r. by destruct c; simpl in *; subst.
        - unfold chan_send. rewrite Hc. simpl in Hlen.
          assert (Hlt : Nat.ltb (length (ch_buf c)) (ch_cap c) = true) by (apply Nat.ltb_lt; lia).
          rewrite Hlt, IH; simpl; [by rewrite <- app_assoc|done|rewrite length_app; simpl; lia]. }
      rewrite Hrun; [|done|simpl; lia]. simpl. unfold chan_send. simpl.
      rewrite Ht. done.
  - intros c x y c' Hc Hl Hr. unfold chan_recv in Hr. destruct (ch_buf c) as [|z rest] eqn:Hb.
    + destruct (ch_closed c); discriminate.
    + injection Hr as <- <-. unfold chan_send. simpl. rewrite Hc.
      simpl in Hl. assert (Hlt : Nat.ltb (length rest) (ch_cap c) = true) by (apply Nat.ltb_lt; lia).
      rewrite Hlt. by eexists.
  - intros s Hc Hl. unfold Pool.step. destruct (Pool.halted s); [done|].
    destruct (Pool.prod s) as [|x rest]; [done|].
    unfold chan_send. rewrite Hc, Hl, Nat.ltb_irrefl. done.
Qed.

(** C10: [NewClientWrapper] starts from the client with [Timeout = 0] and
    [http.DefaultTransport], [NewTransportWrapper] from the transport with
    [MaxIdleConns = 100] and [IdleConnTimeout = 90s]; the options are then
    applied left to right (adding an option at the end applies it last to
    the result of the others), so the rightmost option setting a field
    wins. *)
Theorem C10_options_left_to_right :
  NewClientWrapper [] = mkClientWrapper (http.mkClient http.DefaultTransport 0)
  /\ http.ClTimeout (Cl (NewClientWrapper [])) = 0
  /\ http.MaxIdleConns (Tr (NewTransportWrapper [])) = 100
  /\ http.IdleConnTimeout (Tr (NewTransportWrapper [])) = 90 * Second
  /\ (forall opts o, NewClientWrapper (opts ++ [o]) = o (NewClientWrapper opts))
  /\ (forall opts o, NewTransportWrapper (opts ++ [o]) = o (NewTransportWrapper opts))
  /\ (forall a b, http.ClTimeout (Cl (NewClientWrapper [Timeout a; Timeout b])) = b)
  /\ (forall opts1 t opts2,
        (forall o c, In o opts2 -> http.ClTimeout (Cl (o c)) = http.ClTimeout (Cl c)) ->
        http.ClTimeout (Cl (NewClientWrapper (opts1 ++ Timeout t :: opts2))) = t)
  /\ (forall opts1 v opts2,
        (forall o t, In o opts2 -> http.IdleConnTimeout (Tr (o t)) = http.IdleConnTimeout (Tr t)) ->
        http.IdleConnTimeout (Tr (NewTransportWrapper (opts1 ++ IdleConTimeout v :: opts2))) = v).
Proof.
  split; [done|]. split; [done|]. split; [done|]. split; [done|].
  split; [intros opts o; unfold NewClientWrapper; by rewrite fold_left_app|].
  split; [intros opts o; unfold NewTransportWrapper; by rewrite fold_left_app|].
  split; [done|]. split.
  - intros opts1 t opts2 H. unfold NewClientWrapper. rewrite fold_left_app. simpl.
    apply fold_preserves with (P := fun c => http.ClTimeout (Cl c) = t); [|done].
    intros o c Hin Hc. rewrite H; done.
  - intros opts1 v opts2 H. unfold NewTransportWrapper. rewrite fold_left_app. simpl.
    apply fold_preserves with (P := fun t => http.IdleConnTimeout (Tr t) = v).
    + intros o t Hin Hc. rewrite H; done.
    + match goal with |- context [IdleConTimeout v ?t0] => by destruct t0 as [[]] end.
Qed.

(** C7 (as stated): when no step of the scenario is left, the worker has
    requested 1, 2, 3 and returned, the queue is drained and the limit
    counter is 0.  It fails: on the schedule producer, producer, worker
    (takes job 1), producer, [close(work)], [main] returns, the process has
    exited with status 0 while jobs 1, 2, 3 are still unrequested. *)
Lemma C7_scenario_fifo_drain_counterexample :
  ~ (forall (ls : list Pool.label) (s : Pool.state),
       Forall (fun l => Pool.scenario_label l = true) ls ->
       Pool.run Pool.scenario_state ls = Some s ->
       (forall l, Pool.scenario_label l = true -> Pool.step s l = None) ->
       Pool.requested (Pool.log s) = [1; 2; 3]
       /\ map Pool.w_pc (Pool.workers s) = [Pool.WExited]
       /\ ch_buf (Pool.queue s) = [] /\ ch_closed (Pool.queue s) = true
       /\ Pool.limit s = 0).
Proof.
  intros H.
  assert (E : Pool.run Pool.scenario_state
                [Pool.LProducer; Pool.LProducer; Pool.LWorker 0; Pool.LProducer;
                 Pool.LMain; Pool.LMain]
              = Some (Pool.after Pool.scenario_state
                [Pool.LProducer; Pool.LProducer; Pool.LWorker 0; Pool.LProducer;
                 Pool.LMain; Pool.LMain])) by (vm_compute; reflexivity).
  assert (Hh : Pool.halted (Pool.after Pool.scenario_state
                [Pool.LProducer; Pool.LProducer; Pool.LWorker 0; Pool.LProducer;
                 Pool.LMain; Pool.LMain]) = Some 0) by (vm_compute; reflexivity).
  assert (Hls : Forall (fun l => Pool.scenario_label l = true)
                [Pool.LProducer; Pool.LProducer; Pool.LWorker 0; Pool.LProducer;
                 Pool.LMain; Pool.LMain]) by (repeat constructor).
  destruct (H _ _ Hls E) as [Hr _].
  - intros l _. unfold Pool.step. rewrite Hh. reflexivity.
  - vm_compute in Hr. discriminate Hr.
Qed.

(** C7: from the scenario state (capacity 2, one worker, jobs 1, 2, 3, then
    [close]; no /stop and no failing request), in every run the jobs are
    requested in the order 1, 2, 3 (a prefix of it so far); once the worker
    has returned it has requested exactly 1, 2, 3, the queue is closed and
    empty and the limit counter is 0; when no step is left, [main] has
    returned after [close(work)] and the process has exited with status 0
    (whether or not the worker got to all jobs); and every run ends (there
    is no infinite run). *)
Theorem C7_scenario_fifo_drain :
  (forall (ls : list Pool.label) (s : Pool.state),
     Forall (fun l => Pool.scenario_label l = true) ls ->
     Pool.run Pool.scenario_state ls = Some s ->
     (exists rest, Pool.requested (Pool.log s) ++ rest = [1; 2; 3])
     /\ (map Pool.w_pc (Pool.workers s) = [Pool.WExited] ->
         Pool.requested (Pool.log s) = [1; 2; 3]
         /\ ch_buf (Pool.queue s) = [] /\ ch_closed (Pool.queue s) = true
         /\ Pool.limit s = 0)
     /\ ((forall l, Pool.scenario_label l = true -> Pool.step s l = None) ->
         Pool.halted s = Some 0 /\ Pool.main_pc s = Pool.MClosed
         /\ ch_closed (Pool.queue s) = true))
  /\ Acc (fun s' s => exists l, Pool.scenario_label l = true /\ Pool.step s l = Some s')
         Pool.scenario_state.
Proof.
  split.
  - intros ls s Hls Hrun.
    pose proof (PoolFacts.scenario_inv_run _ _ _ Hls PoolFacts.scenario_inv_init Hrun) as Hi.
    split; [|split; [|by apply PoolFacts.scenario_terminal]].
    + destruct Hi as (_ & _ & _ & _ & _ & _ & _ & _ & w & _ & Heq & _).
      eexists. exact Heq.
    + intros Hex.
      destruct Hi as (_ & _ & _ & _ & _ & _ & Hcl & Hmp & w & Hws & Heq & _ & Hx & Hlim).
      rewrite Hws in Hex. injection Hex as Hp.
      destruct (Hx Hp) as [Hc Hb]. pose proof (Hmp (proj1 Hcl Hc)) as Hpr.
      rewrite Hp, Hb, Hpr in Heq. cbn in Heq. rewrite app_nil_r in Heq.
      unfold Pool.alive in Hlim. rewrite Hp in Hlim. by repeat split.
  - apply (PoolFacts.scenario_acc (S (Pool.scenario_measure Pool.scenario_state)));
      [lia|apply PoolFacts.scenario_inv_init].
Qed.

Lemma C7_scenario_fifo_drain_witness :
  Pool.requested (Pool.log (Pool.after Pool.scenario_state
    [Pool.LProducer; Pool.LProducer; Pool.LWorker 0; Pool.LProducer; Pool.LMain;
     Pool.LWorker 0; Pool.LWorker 0; Pool.LWorker 0; Pool.LWorker 0; Pool.LWorker 0;
     Pool.LWorker 0; Pool.LWorker 0; Pool.LWorker 0; Pool.LWorker 0; Pool.LWorker 0;
     Pool.LWorker 0; Pool.LWorker 0])) = [1; 2; 3].
Proof.
  assert (H : Pool.run Pool.scenario_state
    [Pool.LProducer; Pool.LProducer; Pool.LWorker 0; Pool.LProducer; Pool.LMain;
     Pool.LWorker 0; Pool.LWorker 0; Pool.LWorker 0; Pool.LWorker 0; Pool.LWorker 0;
     Pool.LWorker 0; Pool.LWorker 0; Pool.LWorker 0; Pool.LWorker 0; Pool.LWorker 0;
     Pool.LWorker 0; Pool.LWorker 0]
    = Some (Pool.after Pool.scenario_state
    [Pool.LProducer; Pool.LProducer; Pool.LWorker 0; Pool.LProducer; Pool.LMain;
     Pool.LWorker 0; Pool.LWorker 0; Pool.LWorker 0; Pool.LWorker 0; Pool.LWorker 0;
     Pool.LWorker 0; Pool.LWorker 0; Pool.LWorker 0; Pool.LWorker 0; Pool.LWorker 0;
     Pool.LWorker 0; Pool.LWorker 0])) by (vm_compute; reflexivity).
  refine (proj1 (proj1 (proj2 (proj1 C7_scenario_fifo_drain _ _ _ H)) _)).
  - repeat constructor.
  - vm_compute. reflexivity.
Defined.

(** C9: in every run of the program (from [main] with any capacity and
    jobs, with any control-plane requests), the limit counter equals the
    number of worker goroutines that have not returned, so it is 0 exactly
    when every worker has returned; [main]'s [ctrl.wgroup()] and every
    [go c.wgroup()] have started one worker per iteration, never more than
    5, and a [wgroup] loop stops iterating exactly when it has started 5. *)
Theorem C9_limit_counts_live_workers (cap : nat) (jobs : list Z)
    (ls : list Pool.label) (s : Pool.state) :
  Pool.run (Pool.init cap jobs) ls = Some s ->
  Pool.limit s = Z.of_nat (Pool.live (Pool.workers s))
  /\ (Pool.limit s = 0 <-> Forall (fun w => Pool.w_pc w = Pool.WExited) (Pool.workers s))
  /\ Pool.count_origin Pool.OMain (Pool.workers s) = Pool.worker_spawned_by_main (Pool.main_pc s)
  /\ (forall i, Pool.main_pc s = Pool.MWgroup i -> (i <= 5)%nat)
  /\ (forall k i, Pool.wgroups s !! k = Some i ->
        (i <= 5)%nat /\ Pool.count_origin (Pool.OStart k) (Pool.workers s) = i
        /\ (Pool.halted s = None -> (Pool.step s (Pool.LWgroup k) = None <-> i = 5%nat))).
Proof.
  intros H.
  destruct (PoolFacts.wg_inv_run _ _ _ (PoolFacts.wg_inv_init cap jobs) H)
    as (Hl & Hm & Hmi & Hg & _).
  split; [done|]. split.
  { rewrite Hl, <- PoolFacts.live_zero. lia. }
  split; [done|]. split; [done|].
  intros k i Hk. destruct (Hg k i Hk) as [Hi Hc]. split; [done|]. split; [done|].
  intros Hh. unfold Pool.step. rewrite Hh, Hk.
  destruct (Nat.ltb i 5) eqn:E; [apply Nat.ltb_lt in E|apply Nat.ltb_ge in E];
    split; intros; (discriminate || lia || done).
Qed.

Lemma C9_limit_counts_live_workers_witness :
  match Pool.run (Pool.init 10 [7]) [Pool.LMain; Pool.LCallAdd; Pool.LCallStart; Pool.LWgroup 0]
  with
  | Some s => Pool.limit s = Z.of_nat (Pool.live (Pool.workers s))
  | None => False
  end.
Proof.
  destruct (Pool.run (Pool.init 10 [7]) [Pool.LMain; Pool.LCallAdd; Pool.LCallStart; Pool.LWgroup 0])
    as [s|] eqn:E.
  - exact (proj1 (C9_limit_counts_live_workers 10 [7] _ s E)).
  - vm_compute in E. discriminate.
Defined.

(** C1: the stop handler's [c.done <- struct{}{}] hands the signal to one
    worker, and only the later [close(c.done)] reaches the others; in the
    window between them a worker keeps taking jobs from the queue.  On
    [stop_race_schedule] worker 1 calls [request] on jobs 1, 2 and 3 after
    /stop was invoked and then returns, so the bound "at most one job after
    Stop per worker" fails in the program. *)
Theorem C1_stop_race_extra_jobs :
  (exists s, Pool.run Pool.main_state Pool.stop_race_schedule = Some s
     /\ Pool.after_stop_jobs 1 false (Pool.log s) = 3%nat
     /\ Pool.workers s !! 1%nat = Some (Pool.mkWorker Pool.WExited Pool.OMain)
     /\ Pool.stops s = [Pool.SReturned])
  /\ ~ (forall ls s w, Pool.run Pool.main_state ls = Some s ->
          (Pool.after_stop_jobs w false (Pool.log s) <= 1)%nat).
Proof.
  assert (E : Pool.run Pool.main_state Pool.stop_race_schedule
              = Some (Pool.after Pool.main_state Pool.stop_race_schedule))
    by (vm_compute; reflexivity).
  split.
  - eexists. split; [exact E|]. vm_compute. repeat split.
  - intros H. specialize (H _ _ 1%nat E). vm_compute in H. lia.
Qed.

(** C2: the done channel of a generation is a broadcast flag.  Once
    [close(c.done)] has run it stays closed for every later step; it turns
    closed only by a stop handler executing [close(c.done)] on the current
    generation's channel (that handler then returns); a worker entering its
    [select] evaluates [c.done] to the current generation's channel,
    without consuming anything; a worker whose [select] is on a closed done
    channel takes the stop branch, again without consuming anything (the
    channels and all stop handlers are left as they are, so every other
    worker sees it too); and a worker whose [select] is on an open done
    channel on which no stop handler is sending takes the [default]
    branch. *)
Theorem C2_done_broadcast (s s' : Pool.state) (l : Pool.label) :
  Pool.step s l = Some s' ->
  (forall ch, Pool.done_closed s ch = true -> Pool.done_closed s' ch = true)
  /\ (forall ch, Pool.done_closed s ch = false -> Pool.done_closed s' ch = true ->
        exists k, l = Pool.LStopG k /\ Pool.stops s !! k = Some Pool.SClose
          /\ ch = Pool.cur s /\ Pool.stops s' !! k = Some Pool.SReturned)
  /\ (forall i w ww, l = Pool.LWorker i -> Pool.workers s !! i = Some w ->
        Pool.w_pc w = Pool.WSelect ww ->
        Pool.workers s' !! i
          = Some (Pool.mkWorker (Pool.WSelectOn ww (Pool.cur s)) (Pool.w_origin w))
        /\ Pool.dones s' = Pool.dones s /\ Pool.stops s' = Pool.stops s)
  /\ (forall i w ww ch, l = Pool.LWorker i -> Pool.workers s !! i = Some w ->
        Pool.w_pc w = Pool.WSelectOn ww ch -> Pool.done_closed s ch = true ->
        Pool.workers s' !! i = Some (Pool.mkWorker (Pool.WReq ww true) (Pool.w_origin w))
        /\ Pool.dones s' = Pool.dones s /\ Pool.stops s' = Pool.stops s)
  /\ (forall i w ww ch, l = Pool.LWorker i -> Pool.workers s !! i = Some w ->
        Pool.w_pc w = Pool.WSelectOn ww ch -> Pool.done_closed s ch = false ->
        (forall k, Pool.stops s !! k <> Some (Pool.SSend ch)) ->
        Pool.workers s' !! i = Some (Pool.mkWorker (Pool.WReq ww false) (Pool.w_origin w))).
Proof.
  intros H. split; [|split; [|split; [|split]]].
  - intros ch. by apply PoolFacts.step_closed_stays with l.
  - intros ch Hc Hc'.
    destruct (PoolFacts.step_dones s l s' H) as [Ed|[(k & -> & Hk & Hcur & Ed & Es)|(_ & Ed)]];
      unfold Pool.done_closed in Hc, Hc'; rewrite Ed in Hc'.
    + by rewrite Hc in Hc'.
    + exists k. split; [done|]. split; [done|].
      destruct (decide (Pool.cur s = ch)) as [<-|Hne].
      * split; [done|]. rewrite Es. apply list_lookup_insert_eq.
        eapply lookup_lt_Some; eauto.
      * rewrite list_lookup_insert_ne in Hc' by done. by rewrite Hc in Hc'.
    + destruct (Pool.dones s !! ch) as [b|] eqn:Hd.
      * rewrite (lookup_app_l_Some _ _ _ _ Hd) in Hc'. by subst.
      * rewrite lookup_app_r in Hc' by (by apply lookup_ge_None).
        destruct (_ - _)%nat; simpl in Hc'; discriminate.
  - intros i w ww -> Hw Hp. unfold Pool.step in H.
    destruct (Pool.halted s); [discriminate H|]. rewrite Hw in H.
    unfold Pool.worker_step in H. rewrite Hp in H. injection H as <-.
    cbn. split; [|done]. apply list_lookup_insert_eq. eapply lookup_lt_Some; eauto.
  - intros i w ww ch -> Hw Hp Hc. unfold Pool.step in H.
    destruct (Pool.halted s); [discriminate H|]. rewrite Hw in H.
    unfold Pool.worker_step in H. rewrite Hp, Hc in H. injection H as <-.
    cbn. split; [|done]. apply list_lookup_insert_eq. eapply lookup_lt_Some; eauto.
  - intros i w ww ch -> Hw Hp Hc Hns. unfold Pool.step in H.
    destruct (Pool.halted s); [discriminate H|]. rewrite Hw in H.
    unfold Pool.worker_step in H. rewrite Hp, Hc, PoolFacts.first_sender_none in H by done.
    injection H as <-. cbn. apply list_lookup_insert_eq. eapply lookup_lt_Some; eauto.
Qed.

Lemma C2_done_broadcast_witness :
  match Pool.run (Pool.init 10 [0; 1; 2; 3]) (take 21 Pool.stop_race_schedule) with
  | Some s =>
      match Pool.step s (Pool.LWorker 1) with
      | Some s' => Pool.workers s' !! 1%nat
                   = Some (Pool.mkWorker (Pool.WReq 3 true) Pool.OMain)
      | None => False
      end
  | None => False
  end.
Proof.
  destruct (Pool.run (Pool.init 10 [0; 1; 2; 3]) (take 21 Pool.stop_race_schedule))
    as [s|] eqn:E; [|vm_compute in E; discriminate E].
  destruct (Pool.step s (Pool.LWorker 1)) as [s'|] eqn:E2.
  - refine (proj1 (proj1 (proj2 (proj2 (proj2 (C2_done_broadcast s s' _ E2))))
                     1%nat (Pool.mkWorker (Pool.WSelectOn 3 0) Pool.OMain) 3 0%nat
                     eq_refl _ eq_refl _));
      vm_compute in E; injection E as <-; reflexivity.
  - vm_compute in E. injection E as <-. vm_compute in E2. discriminate E2.
Defined.

(** C3, as the claim states it: a failed downstream call never ends the
    process.  It does: on [failing_request_schedule] worker 0's [Get] fails
    and the process exits with status 1. *)
Lemma C3_failed_request_exits_counterexample :
  ~ (forall ls s i s', Pool.run Pool.main_state ls = Some s ->
       Pool.step s (Pool.LFail i) = Some s' -> Pool.halted s' = None).
Proof.
  intros H.
  assert (E : Pool.run Pool.main_state (take 5 Pool.failing_request_schedule)
              = Some (Pool.after Pool.main_state (take 5 Pool.failing_request_schedule)))
    by (vm_compute; reflexivity).
  assert (E2 : Pool.step (Pool.after Pool.main_state (take 5 Pool.failing_request_schedule))
                 (Pool.LFail 0)
               = Some (Pool.after Pool.main_state Pool.failing_request_schedule))
    by (vm_compute; reflexivity).
  specialize (H _ _ _ _ E E2). vm_compute in H. discriminate H.
Qed.

(** C3 (corrected): whenever a worker is about to call [request] on a job,
    the downstream call may fail; [request] then prints the error and
    calls [os.Exit(1)]: the process ends with status 1, the failed job is
    the last one requested, and no goroutine makes another step. *)
Theorem C3_failed_request_exits (s : Pool.state) (i : nat) (w : Pool.worker)
    (ww : Z) (last : bool) :
  Pool.halted s = None -> Pool.workers s !! i = Some w -> Pool.w_pc w = Pool.WReq ww last ->
  exists s', Pool.step s (Pool.LFail i) = Some s'
    /\ Pool.halted s' = Some 1
    /\ Pool.log s' = Pool.log s ++ [Pool.EvReq i ww]
    /\ Pool.workers s' = Pool.workers s
    /\ (forall l, Pool.step s' l = None).
Proof.
  intros Hh Hw Hp. destruct w as [pc o]. cbn in Hp. subst pc.
  eexists. unfold Pool.step at 1. rewrite Hh, Hw.
  split; [reflexivity|]. cbn. repeat split; done.
Qed.

Lemma C3_failed_request_exits_witness :
  exists s', Pool.step (Pool.after Pool.main_state (take 5 Pool.failing_request_schedule))
               (Pool.LFail 0) = Some s' /\ Pool.halted s' = Some 1.
Proof.
  destruct (C3_failed_request_exits
              (Pool.after Pool.main_state (take 5 Pool.failing_request_schedule)) 0
              (Pool.mkWorker (Pool.WReq 0 false) Pool.OMain) 0 false)
    as (s' & E & Hh & _); [vm_compute; reflexivity|vm_compute; reflexivity|reflexivity|].
  exists s'. split; assumption.
Defined.

(** C4, as the claim states it: a second Stop is a no-op or a returned
    error, never a crash.  On [double_stop_schedule] the second /stop's
    goroutine panics (send on a closed channel). *)
Lemma C4_second_stop_panics_counterexample :
  ~ (forall ls s k, Pool.run Pool.main_state ls = Some s ->
       Pool.stops s !! k <> Some Pool.SPanicked).
Proof.
  intros H.
  assert (E : Pool.run Pool.main_state Pool.double_stop_schedule
              = Some (Pool.after Pool.main_state Pool.double_stop_schedule))
    by (vm_compute; reflexivity).
  apply (H _ _ 1%nat E). vm_compute. reflexivity.
Qed.

(** C4 (corrected): calling /stop again after the current done channel has
    been closed never fires the signal a second time: the new handler is
    blocked on [c.done <- struct{}{}] and never reaches [close]; in every
    later run it either stays blocked there or panics (send on a closed
    channel), and it can panic right away, leaving the done channels as
    they are.  The failure is a panic of the handler's goroutine, not an
    error returned to the caller. *)
Theorem C4_repeated_stop_panics (s s1 : Pool.state) :
  Pool.halted s = None -> Pool.done_closed s (Pool.cur s) = true ->
  Pool.step s Pool.LCallStop = Some s1 ->
  Pool.stops s1 !! length (Pool.stops s) = Some (Pool.SSend (Pool.cur s))
  /\ (exists s2, Pool.step s1 (Pool.LStopG (length (Pool.stops s))) = Some s2
        /\ Pool.stops s2 !! length (Pool.stops s) = Some Pool.SPanicked
        /\ Pool.dones s2 = Pool.dones s)
  /\ (forall ls s', Pool.run s1 ls = Some s' ->
        Pool.stops s' !! length (Pool.stops s) = Some (Pool.SSend (Pool.cur s))
        \/ Pool.stops s' !! length (Pool.stops s) = Some Pool.SPanicked).
Proof.
  intros Hh Hc H. unfold Pool.step in H. rewrite Hh in H. injection H as <-.
  set (k := length (Pool.stops s)).
  assert (Hk : Pool.stops (Pool.set_stops (Pool.emit s Pool.EvStop)
                              (Pool.stops s ++ [Pool.SSend (Pool.cur s)])) !! k
               = Some (Pool.SSend (Pool.cur s))).
  { cbn. rewrite lookup_app_r by lia. subst k. by rewrite Nat.sub_diag. }
  split; [done|]. split.
  - eexists. unfold Pool.step. cbn [Pool.halted Pool.set_stops Pool.emit] in *. rewrite Hh.
    rewrite Hk. cbn [Pool.stops Pool.set_stops Pool.emit] in Hk.
    unfold Pool.done_closed in *. cbn. rewrite Hc.
    split; [reflexivity|]. cbn. split; [|done].
    apply list_lookup_insert_eq. eapply lookup_lt_Some; eauto.
  - assert (Hinv : forall t, (Pool.stops t !! k = Some (Pool.SSend (Pool.cur s))
                              /\ Pool.done_closed t (Pool.cur s) = true)
                             \/ Pool.stops t !! k = Some Pool.SPanicked ->
              forall ls t', Pool.run t ls = Some t' ->
              (Pool.stops t' !! k = Some (Pool.SSend (Pool.cur s))
               /\ Pool.done_closed t' (Pool.cur s) = true)
              \/ Pool.stops t' !! k = Some Pool.SPanicked).
    { intros t Ht ls'. revert t Ht. induction ls' as [|l ls' IH]; intros t Ht t' Hr;
        cbn in Hr.
      - by injection Hr as <-.
      - destruct (Pool.step t l) as [t1|] eqn:Hs; [|discriminate Hr].
        apply (IH t1); [|done].
        destruct Ht as [[Hk' Hct']|Hk'].
        + destruct (PoolFacts.step_stops _ _ _ _ _ Hs Hk')
            as [Hs1|[(_ & Hs1 & _)|[(_ & Hx & _)|(i & w & ww & ch & _ & _ & _ & Hx & Ho & _)]]].
          * left. split; [done|]. by apply PoolFacts.step_closed_stays with t l.
          * by right.
          * discriminate Hx.
          * injection Hx as Hx. rewrite <- Hx in Ho. congruence.
        + destruct (PoolFacts.step_stops _ _ _ _ _ Hs Hk')
            as [Hs1|[(_ & Hs1 & _)|[(_ & Hx & _)|(i & w & ww & ch & _ & _ & _ & Hx & _)]]];
            [by right|by right|discriminate Hx|discriminate Hx]. }
    intros ls s' Hr.
    destruct (Hinv _ (or_introl (conj Hk Hc)) ls s' Hr) as [[? _]|?]; [by left|by right].
Qed.

Lemma C4_repeated_stop_panics_witness :
  Pool.stops (Pool.after Pool.main_state (take 8 Pool.double_stop_schedule)) !! 1%nat
  = Some (Pool.SSend 0).
Proof.
  refine (proj1 (C4_repeated_stop_panics
                   (Pool.after Pool.main_state (take 7 Pool.double_stop_schedule))
                   (Pool.after Pool.main_state (take 8 Pool.double_stop_schedule)) _ _ _));
    vm_compute; reflexivity.
Defined.

(** C5, as the claim states it: once /stop is invoked, its handler returns
    without waiting for any worker.  Right after the first /stop of
    [main] no step of the handler's own is possible: it blocks on the
    unbuffered send until a worker receives. *)
Lemma C5_stop_blocks_counterexample :
  ~ (forall ls s k, Pool.run Pool.main_state ls = Some s ->
       Pool.stops s !! k = Some (Pool.SSend (Pool.cur s)) ->
       exists n s', Pool.run s (repeat (Pool.LStopG k) n) = Some s'
         /\ Pool.stops s' !! k = Some Pool.SReturned).
Proof.
  intros H.
  assert (E : Pool.run Pool.main_state [Pool.LCallStop]
              = Some (Pool.after Pool.main_state [Pool.LCallStop]))
    by (vm_compute; reflexivity).
  destruct (H _ _ 0%nat E) as ([|n] & s' & Hr & Hs); [vm_compute; reflexivity| |].
  - cbv beta iota delta [Pool.run repeat] in Hr. injection Hr as <-.
    vm_compute in Hs. discriminate Hs.
  - vm_compute in Hr. discriminate Hr.
Qed.

(** C5 (corrected): /stop does not wait for the queue to drain or for the
    workers to return, but its handler first blocks on the unbuffered
    [c.done <- struct{}{}]: while the done channel is open, the only step
    that moves it on is a worker receiving from it in a [select] that
    evaluated [c.done] to that channel; the handler then
    reaches [close(c.done)], and its next own step, always possible,
    returns (or panics if the channel was closed meanwhile). *)
Theorem C5_stop_waits_for_receiver (s s' : Pool.state) (l : Pool.label) (k ch : nat) :
  Pool.step s l = Some s' ->
  Pool.stops s !! k = Some (Pool.SSend ch) -> Pool.done_closed s ch = false ->
  Pool.stops s' !! k = Some (Pool.SSend ch)
  \/ (exists i w ww, l = Pool.LWorker i /\ Pool.workers s !! i = Some w
        /\ Pool.w_pc w = Pool.WSelectOn ww ch
        /\ Pool.workers s' !! i = Some (Pool.mkWorker (Pool.WReq ww true) (Pool.w_origin w))
        /\ Pool.stops s' !! k = Some Pool.SClose
        /\ Pool.halted s' = None
        /\ exists s'', Pool.step s' (Pool.LStopG k) = Some s''
             /\ (Pool.stops s'' !! k = Some Pool.SReturned
                 \/ Pool.stops s'' !! k = Some Pool.SPanicked)).
Proof.
  intros H Hk Hc.
  destruct (PoolFacts.step_stops _ _ _ _ _ H Hk)
    as [Hs|[(_ & _ & Hx)|[(_ & Hx & _)|(i & w & ww & ch' & -> & Hw & Hp & Hx & Ho & Hs)]]].
  - by left.
  - by rewrite (Hx ch eq_refl) in Hc.
  - discriminate Hx.
  - right. injection Hx as <-. exists i, w, ww.
    pose proof H as H0. unfold Pool.step in H.
    destruct (Pool.halted s) eqn:Hh; [discriminate H|]. rewrite Hw in H.
    unfold Pool.worker_step in H. rewrite Hp, Ho in H.
    destruct (Pool.first_sender ch (Pool.stops s)) as [k'|] eqn:Hf.
    2:{ injection H as <-. cbn in Hs. by rewrite Hk in Hs. }
    injection H as <-.
    assert (Hlt : (i < length (Pool.workers s))%nat) by (eapply lookup_lt_Some; eauto).
    split; [done|]. split; [done|]. split; [done|].
    split; [cbn; by apply list_lookup_insert_eq|].
    split; [done|]. split; [cbn; done|].
    unfold Pool.step. cbn [Pool.halted Pool.set_stops Pool.set_wpc Pool.set_workers].
    rewrite Hh, Hs. cbn [Pool.cur Pool.stops Pool.set_stops Pool.set_wpc Pool.set_workers].
    assert (Hlk : (k < length (Pool.stops s))%nat) by (eapply lookup_lt_Some; eauto).
    match goal with |- context [if ?b then _ else _] => destruct b end.
    + eexists. split; [reflexivity|]. right. cbn.
      rewrite list_lookup_insert_eq; [done|]. by rewrite length_insert.
    + eexists. split; [reflexivity|]. left. cbn.
      rewrite list_lookup_insert_eq; [done|]. by rewrite length_insert.
Qed.

Lemma C5_stop_waits_for_receiver_witness :
  exists s'', Pool.step (Pool.after (Pool.init 10 [0])
                [Pool.LMain; Pool.LProducer; Pool.LWorker 0; Pool.LWorker 0; Pool.LCallStop;
                  Pool.LWorker 0])
                (Pool.LStopG 0) = Some s''
    /\ (Pool.stops s'' !! 0%nat = Some Pool.SReturned
        \/ Pool.stops s'' !! 0%nat = Some Pool.SPanicked).
Proof.
  destruct (C5_stop_waits_for_receiver
              (Pool.after (Pool.init 10 [0])
                 [Pool.LMain; Pool.LProducer; Pool.LWorker 0; Pool.LWorker 0; Pool.LCallStop])
              (Pool.after (Pool.init 10 [0])
                 [Pool.LMain; Pool.LProducer; Pool.LWorker 0; Pool.LWorker 0; Pool.LCallStop;
                  Pool.LWorker 0])
              (Pool.LWorker 0) 0 0)
    as [Hs|(i & w & ww & ? & ? & ? & ? & ? & ? & Hret)];
    [vm_compute; reflexivity|vm_compute; reflexivity|vm_compute; reflexivity| |].
  - vm_compute in Hs. discriminate Hs.
  - destruct Hret as [s'' Hret]. exists s''. exact Hret.
Defined.

End Claims.

(* ================================================================== *)
(** ** Further properties of the code *)

Module Extras.
Import Chan Pool PoolFacts MoreFacts.

(** Extra: in every run of the program (any capacity, any jobs, any
    interleaving with /stop, /start and /worker/add) that has not exited,
    each job handed to the producer is in exactly one place: already
    requested, held by one worker, buffered in the queue, or still with the
    producer.  So with distinct jobs no job is ever requested twice. *)
Theorem jobs_conserved cap jobs ls s :
  run (init cap jobs) ls = Some s -> halted s = None ->
  requested (log s) ++ in_hand (workers s) ++ ch_buf (queue s) ++ prod s ≡ₚ jobs
  /\ (NoDup jobs -> NoDup (requested (log s))).
Proof.
  intros Hr Hh. assert (E : jobs_at s ≡ₚ jobs) by (eapply jobs_run; [|exact Hr|exact Hh]; done).
  split; [exact E|]. intros Hnd. rewrite <- E in Hnd. unfold jobs_at in Hnd.
  by apply NoDup_app in Hnd as [? _].
Qed.

Lemma jobs_conserved_witness :
  NoDup (requested (log (after (init 10 [0; 1; 2]%Z)
    [LMain; LMain; LProducer; LProducer; LWorker 0; LWorker 1; LWorker 0; LWorker 1;
     LWorker 0; LWorker 1]))).
Proof.
  refine (proj2 (jobs_conserved 10 [0; 1; 2]%Z
    [LMain; LMain; LProducer; LProducer; LWorker 0; LWorker 1; LWorker 0; LWorker 1;
     LWorker 0; LWorker 1] _ _ _) _).
  - vm_compute. reflexivity.
  - vm_compute. reflexivity.
  - apply (bool_decide_unpack _). vm_compute. exact I.
Defined.

(** Extra: once [close(c.done)] has run on the current done channel, and
    as long as /start is not called, worker [i] calls [request] at most
    [budget_at] more times: once if it is at its [range], entering its
    [select], in a [select] on the closed current channel or in the
    [case <-c.done] branch; twice if it already took [default] with a job
    in hand, or if it is in a [select] on an older done channel (read
    before a /start); never if it has returned; and once for a worker
    started later. *)
Theorem requests_after_close s ls s' i :
  done_closed s (cur s) = true -> Forall (fun l => l <> LCallStart) ls ->
  run s ls = Some s' ->
  (reqs_by i (log s') <= reqs_by i (log s) + budget_at (cur s) (workers s) i)%nat.
Proof.
  intros Hc Hls Hr. pose proof (potential_run s ls s' i Hc Hls Hr) as P.
  unfold potential in P. destruct (halted s'), (halted s); lia.
Qed.

Lemma requests_after_close_witness :
  (reqs_by 0 (log (after (init 10 [0; 1]%Z)
     [LMain; LProducer; LProducer; LWorker 0; LWorker 0; LCallStop; LWorker 0; LStopG 0;
      LWorker 0]))
   <= reqs_by 0 (log (after (init 10 [0; 1]%Z)
        [LMain; LProducer; LProducer; LWorker 0; LWorker 0; LCallStop; LWorker 0; LStopG 0]))
      + budget_at
          (cur (after (init 10 [0; 1]%Z)
             [LMain; LProducer; LProducer; LWorker 0; LWorker 0; LCallStop; LWorker 0; LStopG 0]))
          (workers (after (init 10 [0; 1]%Z)
             [LMain; LProducer; LProducer; LWorker 0; LWorker 0; LCallStop; LWorker 0; LStopG 0]))
          0)%nat.
Proof.
  apply (requests_after_close
           (after (init 10 [0; 1]%Z)
              [LMain; LProducer; LProducer; LWorker 0; LWorker 0; LCallStop; LWorker 0; LStopG 0])
           [LWorker 0]).
  - vm_compute. reflexivity.
  - repeat constructor; discriminate.
  - vm_compute. reflexivity.
Defined.

(** Extra: if /start runs while a /stop handler is still blocked on its
    send to the current done channel, and no worker is in a [select] that
    has already evaluated [c.done] to that channel, that handler stays
    blocked for ever and that channel is never closed: workers entering
    their [select] now read the new channel, and only the current channel
    is ever closed. *)
Theorem stop_stuck_after_start cap jobs ls s k s1 :
  run (init cap jobs) ls = Some s ->
  stops s !! k = Some (SSend (cur s)) -> done_closed s (cur s) = false ->
  (forall i w ww, workers s !! i = Some w -> w_pc w <> WSelectOn ww (cur s)) ->
  step s LCallStart = Some s1 ->
  forall ls' s', run s1 ls' = Some s' ->
    stops s' !! k = Some (SSend (cur s)) /\ done_closed s' (cur s) = false.
Proof.
  intros Hr Hk Hc Hsel H ls'. pose proof (cur_lt_run _ _ _ _ Hr) as Hlt.
  assert (Hs1 : stuck_stop k (cur s) s1).
  { unfold step in H. destruct (halted s); [discriminate H|]. injection H as <-.
    unfold stuck_stop. cbn. split; [done|]. split; [lia|]. split; [rewrite length_app; lia|].
    split; [|exact Hsel].
    unfold done_closed in *. cbn.
    destruct (dones s !! cur s) as [b|] eqn:Hd; [|by apply lookup_ge_None in Hd; lia].
    by rewrite (lookup_app_l_Some _ _ _ _ Hd). }
  clear H. revert s1 Hs1. induction ls' as [|l ls' IH]; intros t Ht s' Hr'; cbn in Hr'.
  - injection Hr' as <-. by destruct Ht as (? & _ & _ & ? & _).
  - destruct (step t l) as [t1|] eqn:E; [|discriminate Hr'].
    exact (IH t1 (stuck_stop_step _ _ _ _ _ Ht E) s' Hr').
Qed.

Lemma stop_stuck_after_start_witness :
  Pool.stops (after (init 10 [0]%Z) [LMain; LCallStop; LCallStart; LWgroup 0; LProducer;
                                      LWorker 1; LWorker 1; LWorker 1])
    !! 0%nat = Some (SSend 0).
Proof.
  refine (proj1 (stop_stuck_after_start 10 [0]%Z [LMain; LCallStop]
            (after (init 10 [0]%Z) [LMain; LCallStop]) 0
            (after (init 10 [0]%Z) [LMain; LCallStop; LCallStart]) _ _ _ _ _
            [LWgroup 0; LProducer; LWorker 1; LWorker 1; LWorker 1] _ _));
    [vm_compute; reflexivity|vm_compute; reflexivity|vm_compute; reflexivity| |
     vm_compute; reflexivity|vm_compute; reflexivity].
  intros i w ww Hw. destruct i as [|i]; vm_compute in Hw; [|discriminate Hw].
  injection Hw as <-. intros Hp. discriminate Hp.
Defined.

(** Extra: a /stop handler blocked on an older done channel is released by
    a worker that evaluated [c.done] to that channel before a /start, and
    its [close(c.done)] then closes the channel of the new generation,
    which no /stop was sent for, while the old one stays open. *)
Theorem old_stop_closes_new_channel cap jobs ls s i w ww ch :
  run (init cap jobs) ls = Some s -> halted s = None -> workers s !! i = Some w -> w_pc w = WSelectOn ww ch ->
  ch <> cur s -> done_closed s ch = false -> done_closed s (cur s) = false ->
  (exists k, stops s !! k = Some (SSend ch)) ->
  exists k s1 s2, stops s !! k = Some (SSend ch)
    /\ step s (LWorker i) = Some s1
    /\ workers s1 !! i = Some (mkWorker (WReq ww true) (w_origin w))
    /\ step s1 (LStopG k) = Some s2
    /\ done_closed s2 (cur s) = true /\ done_closed s2 ch = false
    /\ stops s2 !! k = Some SReturned.
Proof.
  intros Hr Hh Hw Hp Hne Hch Hcur [k0 Hk0].
  destruct (first_sender_exists ch (stops s) k0 Hk0) as [k Hf].
  pose proof (first_sender_some _ _ _ Hf) as Hk.
  assert (Hi : (i < length (workers s))%nat) by (eapply lookup_lt_Some; eauto).
  assert (Hkl : (k < length (stops s))%nat) by (eapply lookup_lt_Some; eauto).
  assert (Hcl : (cur s < length (dones s))%nat) by exact (proj1 (chans_inv_run _ _ _ _ Hr)).
  exists k. eexists. eexists. split; [exact Hk|].
  split; [unfold step; rewrite Hh, Hw; unfold worker_step; rewrite Hp, Hch, Hf; reflexivity|].
  split; [cbn; by apply list_lookup_insert_eq|].
  split.
  { unfold step. cbn [halted set_stops set_wpc set_workers stops].
    rewrite Hh, list_lookup_insert_eq by done.
    unfold done_closed at 1. cbn [dones cur set_stops set_wpc set_workers].
    unfold done_closed in Hcur. rewrite Hcur. reflexivity. }
  unfold done_closed. cbn.
  split; [by rewrite list_lookup_insert_eq|].
  split; [rewrite list_lookup_insert_ne by congruence; exact Hch|].
  apply list_lookup_insert_eq. by rewrite length_insert.
Qed.

Lemma old_stop_closes_new_channel_witness :
  exists k s1 s2, stops (after (init 10 [0]%Z)
        [LMain; LProducer; LWorker 0; LWorker 0; LCallStop; LCallStart]) !! k = Some (SSend 0)
    /\ step (after (init 10 [0]%Z)
        [LMain; LProducer; LWorker 0; LWorker 0; LCallStop; LCallStart]) (LWorker 0) = Some s1
    /\ workers s1 !! 0%nat = Some (mkWorker (WReq 0 true) OMain)
    /\ step s1 (LStopG k) = Some s2
    /\ done_closed s2 1 = true /\ done_closed s2 0 = false
    /\ stops s2 !! k = Some SReturned.
Proof.
  exact (old_stop_closes_new_channel 10 [0]%Z
           [LMain; LProducer; LWorker 0; LWorker 0; LCallStop; LCallStart]
           (after (init 10 [0]%Z) [LMain; LProducer; LWorker 0; LWorker 0; LCallStop; LCallStart])
           0 (mkWorker (WSelectOn 0 0) OMain) 0 0
           ltac:(vm_compute; reflexivity) ltac:(vm_compute; reflexivity) ltac:(vm_compute; reflexivity) eq_refl
           ltac:(vm_compute; discriminate) ltac:(vm_compute; reflexivity)
           ltac:(vm_compute; reflexivity) ltac:(exists 0%nat; vm_compute; reflexivity)).
Defined.

(** Extra: in every run of the program, the work queue is closed exactly
    when [main] is past [close(work)], which happens only after the
    producer has sent every job.  So the producer never sends on a closed
    queue and [close(work)] never panics: the process can exit only with
    status 1 (a failed request, or [log.Fatal] on an error of
    [http.ListenAndServe]) or with status 0, when [main] returns after
    [close(work)].  [main] closes the queue as soon as the producer is
    done, whatever the workers are doing, with the buffered jobs kept in
    the queue; its next step returns, ending the process with status 0
    with the buffered jobs and the workers left where they are. *)
Theorem queue_closed_only_by_main cap jobs ls s :
  run (init cap jobs) ls = Some s ->
  (halted s = None \/ halted s = Some 1 \/ (halted s = Some 0 /\ main_pc s = MClosed))
  /\ (ch_closed (queue s) = true <-> main_pc s = MClosed)
  /\ (main_pc s = MClosed -> prod s = [])
  /\ (halted s = None -> main_pc s = MWait -> prod s = [] ->
      exists s', step s LMain = Some s' /\ main_pc s' = MClosed
        /\ ch_closed (queue s') = true /\ ch_buf (queue s') = ch_buf (queue s)
        /\ workers s' = workers s /\ limit s' = limit s)
  /\ (halted s = None -> main_pc s = MClosed ->
      exists s', step s LMain = Some s' /\ halted s' = Some 0
        /\ ch_buf (queue s') = ch_buf (queue s) /\ workers s' = workers s
        /\ (forall l, step s' l = None)).
Proof.
  intros Hr.
  assert (Hi : queue_inv s).
  { assert (H0 : queue_inv (init cap jobs)) by (split; [by left|]; cbn; split; [split; discriminate|discriminate]).
    revert H0 Hr. generalize (init cap jobs) as s0. revert s.
    induction ls as [|l ls IH]; intros s s0 H0 Hr; cbn in Hr.
    - by injection Hr as <-.
    - destruct (step s0 l) as [s1|] eqn:E; [|discriminate Hr].
      exact (IH s s1 (queue_inv_step s0 l s1 H0 E) Hr). }
  destruct Hi as (Hh & Hc & Hp). split; [done|]. split; [done|]. split; [done|]. split.
  - intros Hh0 Hm Hpr.
    assert (Hcl : ch_closed (queue s) = false)
      by (destruct (ch_closed (queue s)) eqn:E; [pose proof (proj1 Hc eq_refl); congruence|done]).
    eexists. unfold step. rewrite Hh0, Hm, Hpr. unfold chan_close. rewrite Hcl.
    split; [reflexivity|]. done.
  - intros Hh0 Hm. eexists. unfold step at 1. rewrite Hh0, Hm.
    split; [reflexivity|]. split; [done|]. split; [done|]. split; [done|].
    intros l. reflexivity.
Qed.
Lemma queue_closed_only_by_main_witness :
  exists s', step (after (init 10 [0; 1]%Z)
                [LMain; LMain; LMain; LMain; LMain; LMain; LProducer; LProducer]) LMain = Some s'
    /\ ch_buf (queue s') = [0; 1]%Z /\ ch_closed (queue s') = true.
Proof.
  destruct (proj1 (proj2 (proj2 (proj2 (queue_closed_only_by_main 10 [0; 1]%Z
              [LMain; LMain; LMain; LMain; LMain; LMain; LProducer; LProducer]
              (after (init 10 [0; 1]%Z)
                 [LMain; LMain; LMain; LMain; LMain; LMain; LProducer; LProducer])
              ltac:(vm_compute; reflexivity)))))
              ltac:(vm_compute; reflexivity) ltac:(vm_compute; reflexivity)
              ltac:(vm_compute; reflexivity))
    as (s' & E & _ & Hc & Hb & _).
  exists s'. split; [exact E|]. split; [|exact Hc]. rewrite Hb. vm_compute. reflexivity.
Defined.

(** Extra: in a run with no /start and no /worker/add request, the workers
    are exactly those [main]'s [ctrl.wgroup()] has started so far, never
    more than 5, and the limit counter stays between 0 and 5. *)
Theorem pool_size_without_control cap jobs ls s :
  Forall (fun l => l <> LCallStart /\ l <> LCallAdd) ls ->
  run (init cap jobs) ls = Some s ->
  length (workers s) = worker_spawned_by_main (main_pc s)
  /\ (length (workers s) <= 5)%nat /\ (0 <= limit s <= 5)%Z.
Proof.
  intros Hls Hr.
  assert (Hm : main_only s).
  { assert (H0 : main_only (init cap jobs)) by (split; [done|constructor]).
    revert H0 Hls Hr. generalize (init cap jobs) as s0. revert s.
    induction ls as [|l ls IH]; intros s s0 H0 Hls Hr; cbn in Hr.
    - by injection Hr as <-.
    - destruct (step s0 l) as [s1|] eqn:E; [|discriminate Hr].
      apply Forall_cons in Hls as [[Hl1 Hl2] Hls].
      exact (IH s s1 (main_only_step s0 l s1 Hl1 Hl2 H0 E) Hls Hr). }
  destruct Hm as [_ Hw].
  destruct (wg_inv_run _ _ _ (wg_inv_init cap jobs) Hr) as (Hl & Hc & Hmi & _).
  rewrite count_origin_all in Hc by done.
  assert (H5 : (worker_spawned_by_main (main_pc s) <= 5)%nat).
  { destruct (main_pc s) as [i| |] eqn:E; cbn; [by apply Hmi|lia|lia]. }
  assert (Hlive : (live (workers s) <= length (workers s))%nat).
  { unfold live. apply List.filter_length_le. }
  split; [done|]. split; [lia|]. rewrite Hl. lia.
Qed.

Lemma pool_size_without_control_witness :
  (length (workers (after (init 10 [0; 1]%Z)
     [LMain; LMain; LMain; LProducer; LWorker 2; LCallStop])) <= 5)%nat.
Proof.
  refine (proj1 (proj2 (pool_size_without_control 10 [0; 1]%Z
            [LMain; LMain; LMain; LProducer; LWorker 2; LCallStop] _ _ _))).
  - repeat constructor; discriminate.
  - vm_compute. reflexivity.
Defined.

(** Extra: /start, called when every /stop handler has returned or
    panicked, points [c.done] at a new open channel.  As long as no /stop
    or /start request comes in, that channel stays current and open (no
    handler is left to close it), and every worker whose [select]
    evaluates [c.done] after the /start takes [default] and goes on taking
    jobs. *)
Theorem start_reopens s s1 :
  (forall k x, stops s !! k = Some x -> x = SReturned \/ x = SPanicked) ->
  step s LCallStart = Some s1 ->
  done_closed s1 (cur s1) = false
  /\ forall ls t, Forall (fun l => l <> LCallStop /\ l <> LCallStart) ls ->
     run s1 ls = Some t ->
     cur t = cur s1 /\ done_closed t (cur t) = false
     /\ (forall i w ww, halted t = None -> workers t !! i = Some w ->
           w_pc w = WSelectOn ww (cur t) ->
           exists t', step t (LWorker i) = Some t'
             /\ workers t' !! i = Some (mkWorker (WReq ww false) (w_origin w))).
Proof.
  intros Hs H.
  assert (Hq : quiet (cur s1) s1).
  { unfold step in H. destruct (halted s); [discriminate H|]. injection H as <-.
    split; [done|]. split; [|exact Hs].
    unfold done_closed. cbn. rewrite lookup_app_r by lia. by rewrite Nat.sub_diag. }
  split; [exact (proj1 (proj2 Hq))|].
  intros ls t Hls Hr.
  assert (Hqt : quiet (cur s1) t).
  { clear H. revert s1 Hq Hr. induction ls as [|l ls IH]; intros t0 Hq0 Hr; cbn in Hr.
    - by injection Hr as <-.
    - destruct (step t0 l) as [t1|] eqn:E; [|discriminate Hr].
      apply Forall_cons in Hls as [[Hl1 Hl2] Hls].
      rewrite <- (proj1 (step_cur t0 l t1 E) Hl2) in Hq0 |- *.
      exact (IH Hls t1 (quiet_step _ t0 l t1 Hq0 Hl1 Hl2 E) Hr). }
  destruct Hqt as (Hc & Hd & Hst). rewrite Hc.
  split; [done|]. split; [done|].
  intros i w ww Hh Hw Hp.
  assert (Hns : forall k, stops t !! k <> Some (SSend (cur s1))).
  { intros k Hk. by destruct (Hst k _ Hk). }
  eexists. unfold step. rewrite Hh, Hw. unfold worker_step. rewrite Hp, Hd.
  rewrite (first_sender_none _ _ Hns). split; [reflexivity|].
  cbn. apply list_lookup_insert_eq. eapply lookup_lt_Some; eauto.
Qed.

Lemma start_reopens_witness :
  exists t', step (after (init 10 [0; 1]%Z)
               [LMain; LProducer; LWorker 0; LWorker 0; LCallStop; LWorker 0; LStopG 0;
                LCallStart; LCallAdd; LProducer; LWorker 1; LWorker 1])
               (LWorker 1) = Some t'
    /\ workers t' !! 1%nat = Some (mkWorker (WReq 1 false) OAdd).
Proof.
  assert (Hs : forall k x, stops (after (init 10 [0; 1]%Z)
                 [LMain; LProducer; LWorker 0; LWorker 0; LCallStop; LWorker 0; LStopG 0])
                 !! k = Some x -> x = SReturned \/ x = SPanicked).
  { intros k x Hx. destruct k as [|k]; vm_compute in Hx; [|discriminate Hx].
    injection Hx as <-. by left. }
  assert (Hls : Forall (fun l => l <> LCallStop /\ l <> LCallStart)
                  [LCallAdd; LProducer; LWorker 1; LWorker 1])
    by (repeat constructor; discriminate).
  destruct (start_reopens
              (after (init 10 [0; 1]%Z)
                 [LMain; LProducer; LWorker 0; LWorker 0; LCallStop; LWorker 0; LStopG 0])
              (after (init 10 [0; 1]%Z)
                 [LMain; LProducer; LWorker 0; LWorker 0; LCallStop; LWorker 0; LStopG 0;
                  LCallStart]) Hs ltac:(vm_compute; reflexivity)) as [_ H].
  destruct (H _ (after (init 10 [0; 1]%Z)
               [LMain; LProducer; LWorker 0; LWorker 0; LCallStop; LWorker 0; LStopG 0;
                LCallStart; LCallAdd; LProducer; LWorker 1; LWorker 1])
              Hls ltac:(vm_compute; reflexivity)) as (_ & _ & Hw).
  exact (Hw 1%nat (mkWorker (WSelectOn 1 1) OAdd) 1 ltac:(vm_compute; reflexivity)
           ltac:(vm_compute; reflexivity) ltac:(vm_compute; reflexivity)).
Defined.

End Extras.

Module OptionsExtras.
Import Options OptionsMoreFacts.

(** Extra: for any list of the package's client options, the client
    [NewClientWrapper] builds has the transport of the last [Transport]
    option ([http.DefaultTransport] if there is none) and the timeout of
    the last [Timeout] option (0 if there is none). *)
Theorem client_options_last_wins (os : list ClientOpt) :
  NewClientWrapper (map client_option os)
  = mkClientWrapper (http.mkClient (List.last (picked sel_transport os) http.DefaultTransport)
                                   (List.last (picked sel_timeout os) 0)).
Proof.
  induction os as [|o os IH] using rev_ind; [done|].
  unfold NewClientWrapper in *. cbv zeta in *. rewrite map_app, fold_left_app.
  etransitivity; [exact (f_equal (fold_left (fun cl opt => opt cl) (map client_option [o])) IH)|]. cbn.
  rewrite !picked_snoc, !last_snoc_opt. by destruct o.
Qed.

(** Extra: for any list of the package's transport options, every field
    the options can set holds the value of the last option setting it, or
    the builder's default (100 idle connections, no per-host limits, 90s
    idle timeout); the other fields always keep the defaults (TLS handshake
    10s, expect-continue 1s, dialer 30s/30s, HTTP/2 attempted). *)
Theorem transport_options_last_wins (os : list TransportOpt) :
  Tr (NewTransportWrapper (map transport_option os))
  = {| http.MaxIdleConns := List.last (picked sel_max_idle os) 100;
       http.MaxIdleConnsPerHost := List.last (picked sel_max_idle_host os) 0;
       http.MaxConnsPerHost := List.last (picked sel_max_conns_host os) 0;
       http.IdleConnTimeout := List.last (picked sel_idle_timeout os) (90 * Second);
       http.TLSHandshakeTimeout := 10 * Second;
       http.ExpectContinueTimeout := 1 * Second;
       http.DialTimeout := 30 * Second;
       http.DialKeepAlive := 30 * Second;
       http.ForceAttemptHTTP2 := true |}.
Proof.
  induction os as [|o os IH] using rev_ind; [done|].
  unfold NewTransportWrapper in *. cbv zeta in *. rewrite map_app, fold_left_app. cbn.
  rewrite !picked_snoc, !last_snoc_opt.
  destruct (fold_left _ _ _) as [t]. cbn in IH. subst t.
  by destruct o.
Qed.

End OptionsExtras.
